(** * podcast-system: the dispatch/poll protocol and the feed synchronisation

    A shallow embedding of the worker scripts ([scripts/subscribe.js],
    [scripts/update-feeds.js], the search and download scripts) and of the
    polling half of [android/GitHubActionsClient.java], together with the
    properties the specification states about them. *)

From Stdlib Require Import Ascii.
From stdpp Require Import gmap strings list fin_maps pretty.
From Equations Require Import Equations.

Open Scope string_scope.
Open Scope list_scope.
Open Scope nat_scope.

(** ** The client-side poller ([GitHubActionsClient.pollForResults]) *)

Module Poller.

(** What one [GET] of [/data/requests/<requestId>.json] can produce:
    okhttp's [onFailure] (no HTTP response at all) or [onResponse] with a
    status code and a body. *)
Inductive ReadOutcome :=
  | Failure (e : string)
  | HttpResponse (code : nat) (body : string).

(** The [ActionCallback] method that is finally invoked. *)
Inductive Callback :=
  | onSuccess (jsonResult : string)
  | onError (error : string).

(** What the poller does, in order: it enqueues a request, or it posts a
    delayed retry on the main looper. *)
Inductive Event :=
  | Enqueue (attempt : nat)
  | PostDelayed (millis : Z).

(** [Response.isSuccessful]: the code is in [200..299]. *)
Definition isSuccessful (code : nat) : bool :=
  (200 <=? code) && (code <? 300).

Definition is_Enqueue (e : Event) : bool :=
  match e with Enqueue _ => true | PostDelayed _ => false end.

(** Number of read attempts in a run. *)
Definition reads (tr : list Event) : nat := length (List.filter is_Enqueue tr).

(** Total time spent waiting, in milliseconds. *)
Definition waited (tr : list Event) : Z :=
  foldr Z.add 0%Z
    (omap (λ e, match e with PostDelayed d => Some d | _ => None end) tr).

(** A read that found no record and that the poller answers with a retry:
    okhttp's [onFailure], or status 404. *)
Definition transport_failure (o : ReadOutcome) : Prop :=
  match o with Failure _ => True | HttpResponse _ _ => False end.

Definition not_found (o : ReadOutcome) : Prop :=
  match o with Failure _ => False | HttpResponse code _ => code = 404 end.

Section Poll.
(** The Result Store as the poller observes it: the outcome of the read
    issued at each attempt number. *)
Variable store : nat → ReadOutcome.

(** [pollForResults(requestId, callback, attempt)], with [scheduleRetry]
    inlined: the retry is [pollForResults(.., attempt + 1)] after 2000 ms.
    The result is the callback invoked and the events performed. *)
Equations? pollForResults (attempt : nat) : Callback * list Event
  by wf (61 - attempt) lt :=
pollForResults attempt with decide (60 < attempt) := {
  | left _ => (onError "Timeout waiting for results", [])
  | right Hle with store attempt := {
      | Failure _ =>
          let r := pollForResults (attempt + 1) in
          (r.1, Enqueue attempt :: PostDelayed 2000 :: r.2)
      | HttpResponse code body with isSuccessful code := {
          | true => (onSuccess body, [Enqueue attempt])
          | false with decide (code = 404) := {
              | left _ =>
                  let r := pollForResults (attempt + 1) in
                  (r.1, Enqueue attempt :: PostDelayed 2000 :: r.2)
              | right _ =>
                  (onError ("HTTP " +:+ pretty code), [Enqueue attempt])
            }
        }
    }
}.
Proof. all: lia. Qed.

End Poll.

End Poller.

(** ** JavaScript values, the records of the data model and the worker's world *)

Module Js.

(** Truthiness of a string-valued expression: [undefined] and the empty
    string are falsy. *)
Definition truthy (s : string) : bool := bool_decide (s ≠ "").

Definition truthy_opt (o : option string) : bool :=
  match o with Some s => truthy s | None => false end.

(** [a || b] where [a] may be [undefined]. *)
Definition or_else (a : option string) (b : string) : string :=
  match a with
  | Some s => if truthy s then s else b
  | None => b
  end.

(** [a || b] where both may be [undefined]. *)
Definition or_opt (a b : option string) : option string :=
  if truthy_opt a then a else b.

(** An [<item>] as [parseRSS] extracts it. [it_url = ""] stands for an item
    whose enclosure did not match ([episode.url] is [undefined]); [it_size]
    is [None] when [parseInt] yields [NaN]. *)
Record Item := {
  it_title : option string;
  it_url : string;
  it_type : string;
  it_size : option Z;
  it_pubDate : option string;
  it_guid : option string;
  it_duration : option string;
  it_description : option string
}.

(** An entry of [data/episodes/<id>/list.json]: the item's own fields
    ([...ep]) and the fields the handlers add. [ep_isNew = None] is an entry
    without the [isNew] property. *)
Record Episode := {
  ep_item : Item;
  ep_id : option string;
  ep_podcastId : option string;
  ep_isNew : option bool
}.

Record Channel := {
  ch_title : option string;
  ch_author : option string;
  ch_imageUrl : option string;
  ch_description : option string
}.

Record Subscription := {
  sub_id : string;
  sub_title : string;
  sub_author : string;
  sub_feedUrl : string;
  sub_imageUrl : string;
  sub_description : string;
  sub_episodeCount : nat;
  sub_lastUpdated : string;
  sub_subscribedAt : string
}.

(** [data/feeds/<id>.json] *)
Record FeedInfo := {
  feed_podcastId : string;
  feed_channel : Channel;
  feed_episodeCount : nat;
  feed_lastUpdated : string
}.

(** [data/episodes/<id>/list.json] *)
Record EpisodeList := {
  list_podcastId : string;
  list_count : nat;
  list_lastUpdated : option string;
  list_episodes : list Episode
}.

(** One entry of a search response. *)
Record SearchResult := {
  sr_itunesId : Z;
  sr_title : string;
  sr_author : string;
  sr_feedUrl : string;
  sr_imageUrl : string;
  sr_description : string;
  sr_genre : string;
  sr_trackCount : Z
}.

(** What [uploadToInternetArchive] resolves with. *)
Inductive Storage :=
  | NotUploaded (reason : string)
  | Uploaded (url identifier : string).

(** The action-specific fields of a result object. *)
Inductive Details :=
  | SubscribeDetails (action podcastId title : string) (episodeCount : nat)
  | UnsubscribeDetails (action podcastId title : string)
  | ActionFailed (action : string)
  | SearchDetails (query : string) (resultCount : nat) (results : list SearchResult)
  | SearchFailed (query : string)
  | DownloadDetails (episodeId podcastId originalUrl : string) (size : nat)
      (storage : Storage)
  | DownloadFailed (episodeId : string).

(** A result object as it is serialised to [data/requests/<id>.json]; a
    field that the object does not have is [None]. *)
Record ResultRecord := {
  res_success : option bool;
  res_requestId : option string;
  res_timestamp : option string;
  res_error : option string;
  res_details : Details
}.

(** What [updateFeed] returns. *)
Record UpdateResult := {
  updated : bool;
  upd_error : option string;
  newEpisodes : option nat;
  totalEpisodes : option nat
}.

(** [data/last_update.json] *)
Record UpdateSummary := {
  sum_timestamp : string;
  subscriptionsUpdated : nat;
  sum_results : gmap string UpdateResult
}.

(** The files the scripts write, named by the store and the key that
    [path.join] builds the path from. Two paths are the same file exactly
    when store and key agree: what [path.join] does to a key that contains
    [..] or a separator is not modelled. *)
Inductive Path :=
  | subscriptions_path
  | feed_path (podcastId : string)
  | list_path (podcastId : string)
  | request_path (requestId : string)
  | search_path (queryHash : string)
  | lookup_path (itunesId : Z)
  | download_path (episodeId : string)
  | last_update_path.

(** The worker's world: the checked-out [data/] tree, one typed store per
    directory, the journal of [fs.writeFileSync] calls in the order they were
    made, and the number of instants elapsed (one per reading of the clock
    and per exchange with the network). *)
Record World := {
  clock : nat;
  subscriptions_json : option (gmap string Subscription);
  feeds : gmap string FeedInfo;
  episode_lists : gmap string EpisodeList;
  requests : gmap string ResultRecord;
  search_cache : gmap string ResultRecord;
  lookups : gmap Z SearchResult;
  downloads : gmap string ResultRecord;
  last_update : option UpdateSummary;
  written : list Path
}.

Definition tick (w : World) : World :=
  {| clock := S (clock w); subscriptions_json := subscriptions_json w;
     feeds := feeds w; episode_lists := episode_lists w;
     requests := requests w; search_cache := search_cache w;
     lookups := lookups w; downloads := downloads w;
     last_update := last_update w; written := written w |}.

(** Everything of the world but the clock. *)
Definition files (w : World) :=
  (subscriptions_json w, feeds w, episode_lists w, requests w, search_cache w,
   lookups w, downloads w, last_update w, written w).

(** The registry as a handler reads it: no file is the empty object. *)
Definition registry (w : World) : gmap string Subscription :=
  default ∅ (subscriptions_json w).

(** How a JavaScript computation ends: with a value, or with an exception
    (a rejected promise, once awaited). *)
Inductive Completion (A : Type) :=
  | Normal (a : A)
  | Thrown (message : string).
Arguments Normal {A} a.
Arguments Thrown {A} message.

(** A promise either settles, or stays pending for ever. *)
Inductive Settlement (A : Type) :=
  | Settled (c : Completion A)
  | Pending.
Arguments Settled {A} c.
Arguments Pending {A}.

(** Computations over the world. *)
Definition M (A : Type) : Type := World → Completion A * World.

Definition ret {A} (a : A) : M A := λ w, (Normal a, w).

Definition throw {A} (message : string) : M A := λ w, (Thrown message, w).

Definition bind {A B} (m : M A) (k : A → M B) : M B := λ w,
  match m w with
  | (Normal a, w') => k a w'
  | (Thrown e, w') => (Thrown e, w')
  end.

(** [try { m } catch (e) { h e.message }] *)
Definition try_catch {A} (m : M A) (h : string → M A) : M A := λ w,
  match m w with
  | (Normal a, w') => (Normal a, w')
  | (Thrown e, w') => h e w'
  end.

Notation "'let*' x ':=' m 'in' k" := (bind m (λ x, k))
  (at level 10, x name, m at level 100, k at level 200).

(** The writes. [fs.writeFileSync] replaces the file and is taken to succeed:
    every script creates the directories it writes to before it starts. *)
Definition write_subscriptions (subs : gmap string Subscription) : M unit := λ w,
  (Normal (),
   {| clock := clock w; subscriptions_json := Some subs;
      feeds := feeds w; episode_lists := episode_lists w;
      requests := requests w; search_cache := search_cache w;
      lookups := lookups w; downloads := downloads w;
      last_update := last_update w;
      written := written w ++ [subscriptions_path] |}).

Definition write_feed (podcastId : string) (f : FeedInfo) : M unit := λ w,
  (Normal (),
   {| clock := clock w; subscriptions_json := subscriptions_json w;
      feeds := <[podcastId := f]> (feeds w); episode_lists := episode_lists w;
      requests := requests w; search_cache := search_cache w;
      lookups := lookups w; downloads := downloads w;
      last_update := last_update w;
      written := written w ++ [feed_path podcastId] |}).

Definition write_list (podcastId : string) (l : EpisodeList) : M unit := λ w,
  (Normal (),
   {| clock := clock w; subscriptions_json := subscriptions_json w;
      feeds := feeds w; episode_lists := <[podcastId := l]> (episode_lists w);
      requests := requests w; search_cache := search_cache w;
      lookups := lookups w; downloads := downloads w;
      last_update := last_update w;
      written := written w ++ [list_path podcastId] |}).

Definition write_request (requestId : string) (r : ResultRecord) : M unit := λ w,
  (Normal (),
   {| clock := clock w; subscriptions_json := subscriptions_json w;
      feeds := feeds w; episode_lists := episode_lists w;
      requests := <[requestId := r]> (requests w); search_cache := search_cache w;
      lookups := lookups w; downloads := downloads w;
      last_update := last_update w;
      written := written w ++ [request_path requestId] |}).

Definition write_search (queryHash : string) (r : ResultRecord) : M unit := λ w,
  (Normal (),
   {| clock := clock w; subscriptions_json := subscriptions_json w;
      feeds := feeds w; episode_lists := episode_lists w;
      requests := requests w; search_cache := <[queryHash := r]> (search_cache w);
      lookups := lookups w; downloads := downloads w;
      last_update := last_update w;
      written := written w ++ [search_path queryHash] |}).

Definition write_lookup (itunesId : Z) (r : SearchResult) : M unit := λ w,
  (Normal (),
   {| clock := clock w; subscriptions_json := subscriptions_json w;
      feeds := feeds w; episode_lists := episode_lists w;
      requests := requests w; search_cache := search_cache w;
      lookups := <[itunesId := r]> (lookups w); downloads := downloads w;
      last_update := last_update w;
      written := written w ++ [lookup_path itunesId] |}).

Definition write_download (episodeId : string) (r : ResultRecord) : M unit := λ w,
  (Normal (),
   {| clock := clock w; subscriptions_json := subscriptions_json w;
      feeds := feeds w; episode_lists := episode_lists w;
      requests := requests w; search_cache := search_cache w;
      lookups := lookups w; downloads := <[episodeId := r]> (downloads w);
      last_update := last_update w;
      written := written w ++ [download_path episodeId] |}).

Definition write_last_update (s : UpdateSummary) : M unit := λ w,
  (Normal (),
   {| clock := clock w; subscriptions_json := subscriptions_json w;
      feeds := feeds w; episode_lists := episode_lists w;
      requests := requests w; search_cache := search_cache w;
      lookups := lookups w; downloads := downloads w;
      last_update := Some s;
      written := written w ++ [last_update_path] |}).

(** [fs.existsSync(subsPath) ? JSON.parse(fs.readFileSync(subsPath)) : {}] *)
Definition read_subscriptions : M (gmap string Subscription) := λ w,
  (Normal (registry w), w).

(** A string of the digits [0-9a-f], as [digest('hex')] produces them. *)
Fixpoint hexadecimal (s : string) : bool :=
  match s with
  | EmptyString => true
  | String c s' =>
      bool_decide (c ∈ String.list_ascii_of_string "0123456789abcdef") && hexadecimal s'
  end.

(** A string without the character [-]. *)
Fixpoint dashless (s : string) : Prop :=
  match s with
  | EmptyString => True
  | String c s' => c ≠ "-"%char ∧ dashless s'
  end.

(** The episodes of a list file, when there is one. *)
Definition stored_list (w : World) (podcastId : string) : option (list Episode) :=
  list_episodes <$> episode_lists w !! podcastId.

(** The number of entries of a list of keys that are [key]. *)
Definition occurrences (key : string) (keys : list string) : nat :=
  length (filter (λ k, k = key) keys).

(** The request identifiers of the result records written, in order. *)
Definition request_writes (journal : list Path) : list string :=
  omap (λ p, match p with request_path r => Some r | _ => None end) journal.


(** What [protocol.get] delivers: an [error] event, or a response with its
    status, its [location] and [content-type] headers and its body. *)
Inductive Incoming :=
  | NetworkError (message : string)
  | IncomingMessage (statusCode : nat) (location contentType : option string)
      (data : string).

(** What the fetch helpers resolve with. *)
Record Response := {
  ok : bool;
  status : nat;
  text : string
}.

(** What lies outside the scripts: the clock, the network, Node's library and
    the regular expressions of [parseRSS]. [Date_now n] is the clock read at
    instant [n], [protocol_get n url] what a [GET] of [url] issued at
    instant [n] delivers. *)
Class Runtime := {
  Date_now : nat → N;
  toISOString : N → string;
  protocol_get : nat → string → Incoming;
  md5_hex : string → string;
  Object_keys : gmap string Subscription → list string;
  match_channel : string → Channel;
  match_items : string → list Item
}.

(** What is known of the runtime: ISO timestamps are not empty, an MD5 digest
    in hex has 32 hexadecimal characters, and [Object.keys] lists every own
    key once. *)
Class RuntimeLaws (rt : Runtime) : Prop := {
  toISOString_truthy : ∀ t, toISOString t ≠ "";
  md5_hex_length : ∀ s, String.length (md5_hex s) = 32;
  md5_hex_hexadecimal : ∀ s, hexadecimal (md5_hex s) = true;
  Object_keys_NoDup : ∀ m, NoDup (Object_keys m);
  Object_keys_elem : ∀ m k, k ∈ Object_keys m ↔ is_Some (m !! k)
}.

Section Runtime.
Context {rt : Runtime}.

(** [new Date().toISOString()] *)
Definition new_Date_toISOString : M string := λ w,
  (Normal (toISOString (Date_now (clock w))), tick w).

(** [Date.now()] *)
Definition Date_now_ : M N := λ w, (Normal (Date_now (clock w)), tick w).

(** The redirect test of the fetch helpers:
    [statusCode >= 300 && statusCode < 400 && headers.location]. *)
Definition redirect (statusCode : nat) (location : option string) : option string :=
  if (300 <=? statusCode)%nat && (statusCode <? 400)%nat && truthy_opt location
  then location else None.

(** [fetch(url)] of [subscribe.js] and [update-feeds.js]: the inner
    [request(currentUrl, redirectCount)]. *)
Equations? request (currentUrl : string) (redirectCount : nat) (w : World)
  : Completion Response * World by wf (11 - redirectCount) lt :=
request currentUrl redirectCount w with decide (10 < redirectCount)%nat := {
  | left _ => (Thrown "Too many redirects", w)
  | right _ with protocol_get (clock w) currentUrl := {
      | NetworkError e => (Thrown e, tick w)
      | IncomingMessage statusCode location _ data
          with redirect statusCode location := {
          | Some target => request target (redirectCount + 1) (tick w)
          | None =>
              (Normal {| ok := (statusCode <? 400)%nat; status := statusCode;
                         text := data |}, tick w)
        }
    }
}.
Proof. all: lia. Qed.

Definition fetch (url : string) : M Response := request url 0.

End Runtime.

End Js.

(** ** [scripts/subscribe.js] *)

Module Subscribe.
Import Js.

(** The constants the script reads from [process.env] when it is loaded. *)
Record Config := {
  ACTION : string;
  FEED_URL : string;
  PODCAST_ID : string;
  PODCAST_TITLE : string;
  REQUEST_ID : string
}.

Section Script.
Context {rt : Runtime}.
Variable cfg : Config.

(** [if (episode.url) episodes.push(episode)] over the items matched. *)
Definition parseRSS (xml : string) : Channel * list Item :=
  (match_channel xml, filter (λ ep, truthy (it_url ep) = true) (match_items xml)).

Definition generatePodcastId (feedUrl : string) : string :=
  String.substring 0 12 (md5_hex feedUrl).

(** [PODCAST_ID || generatePodcastId(FEED_URL)] *)
Definition podcastId_of : string :=
  if truthy (PODCAST_ID cfg) then PODCAST_ID cfg
  else generatePodcastId (FEED_URL cfg).

(** [subscriptions[podcastId]?.subscribedAt || new Date().toISOString()] *)
Definition subscribedAt_or_now (existing : option Subscription) : M string :=
  match existing with
  | Some s =>
      if truthy (sub_subscribedAt s) then ret (sub_subscribedAt s)
      else new_Date_toISOString
  | None => new_Date_toISOString
  end.

(** [episodes.map((ep, index) => ({...ep, id: ep.guid || `ep-${index}`, podcastId}))] *)
Definition episodesList (podcastId : string) (episodes : list Item) : list Episode :=
  imap (λ index ep,
          {| ep_item := ep;
             ep_id := Some (or_else (it_guid ep) ("ep-" +:+ pretty index));
             ep_podcastId := Some podcastId;
             ep_isNew := None |}) episodes.

Definition subscribe : M ResultRecord :=
  if negb (truthy (FEED_URL cfg)) then throw "No feed URL provided" else
  let podcastId := podcastId_of in
  let* response := fetch (FEED_URL cfg) in
  if negb (ok response)
  then throw ("Failed to fetch feed: " +:+ pretty (status response)) else
  let '(channel, episodes) := parseRSS (text response) in
  let* subscriptions := read_subscriptions in
  let* lastUpdated := new_Date_toISOString in
  let* subscribedAt := subscribedAt_or_now (subscriptions !! podcastId) in
  let title :=
    if truthy (PODCAST_TITLE cfg) then PODCAST_TITLE cfg
    else or_else (ch_title channel) "Unknown" in
  let subscriptions :=
    <[podcastId :=
        {| sub_id := podcastId;
           sub_title := title;
           sub_author := or_else (ch_author channel) "";
           sub_feedUrl := FEED_URL cfg;
           sub_imageUrl := or_else (ch_imageUrl channel) "";
           sub_description := or_else (ch_description channel) "";
           sub_episodeCount := length episodes;
           sub_lastUpdated := lastUpdated;
           sub_subscribedAt := subscribedAt |}]> subscriptions in
  let* _ := write_subscriptions subscriptions in
  let* feedUpdated := new_Date_toISOString in
  let* _ := write_feed podcastId
              {| feed_podcastId := podcastId;
                 feed_channel := channel;
                 feed_episodeCount := length episodes;
                 feed_lastUpdated := feedUpdated |} in
  let* _ := write_list podcastId
              {| list_podcastId := podcastId;
                 list_count := length (episodesList podcastId episodes);
                 list_lastUpdated := None;
                 list_episodes := episodesList podcastId episodes |} in
  ret {| res_success := Some true;
         res_requestId := None;
         res_timestamp := None;
         res_error := None;
         res_details :=
           SubscribeDetails "subscribe" podcastId title (length episodes) |}.

Definition unsubscribe : M ResultRecord :=
  let podcastId := podcastId_of in
  let* subscriptions := read_subscriptions in
  let title :=
    match subscriptions !! podcastId with
    | Some s => if truthy (sub_title s) then sub_title s else "Unknown"
    | None => "Unknown"
    end in
  let subscriptions := delete podcastId subscriptions in
  let* _ := write_subscriptions subscriptions in
  ret {| res_success := Some true;
         res_requestId := None;
         res_timestamp := None;
         res_error := None;
         res_details := UnsubscribeDetails "unsubscribe" podcastId title |}.

(** The record that [subscribe] stores for a feed fetched by the world [w1],
    over the registry [subscriptions]: the clock is read once for
    [lastUpdated] and, when no [subscribedAt] is on record, once more. *)
Definition subscription_written (response : Response)
    (subscriptions : gmap string Subscription) (w1 : World) : Subscription :=
  let channel := (parseRSS (text response)).1 in
  let now := toISOString (Date_now (S (clock w1))) in
  {| sub_id := podcastId_of;
     sub_title :=
       if truthy (PODCAST_TITLE cfg) then PODCAST_TITLE cfg
       else or_else (ch_title channel) "Unknown";
     sub_author := or_else (ch_author channel) "";
     sub_feedUrl := FEED_URL cfg;
     sub_imageUrl := or_else (ch_imageUrl channel) "";
     sub_description := or_else (ch_description channel) "";
     sub_episodeCount := length (parseRSS (text response)).2;
     sub_lastUpdated := toISOString (Date_now (clock w1));
     sub_subscribedAt :=
       match subscriptions !! podcastId_of with
       | Some s => if truthy (sub_subscribedAt s) then sub_subscribedAt s else now
       | None => now
       end |}.

(** [main]: the exit code of the process, [0] when [main] returns and [1]
    after [process.exit(1)]. *)
Definition main : World → nat * World :=
  λ w,
  match
    try_catch
      (let* result :=
         if bool_decide (ACTION cfg = "unsubscribe") then unsubscribe
         else subscribe in
       let* timestamp := new_Date_toISOString in
       let result :=
         {| res_success := res_success result;
            res_requestId := Some (REQUEST_ID cfg);
            res_timestamp := Some timestamp;
            res_error := res_error result;
            res_details := res_details result |} in
       let* _ := write_request (REQUEST_ID cfg) result in
       ret 0)
      (λ message,
       let* timestamp := new_Date_toISOString in
       let errorResult :=
         {| res_success := Some false;
            res_requestId := Some (REQUEST_ID cfg);
            res_timestamp := Some timestamp;
            res_error := Some message;
            res_details := ActionFailed (ACTION cfg) |} in
       let* _ := write_request (REQUEST_ID cfg) errorResult in
       ret 1) w
  with
  | (Normal code, w') => (code, w')
  | (Thrown _, w') => (1, w')
  end.

End Script.

End Subscribe.

(** ** [scripts/update-feeds.js] *)

Module UpdateFeeds.
Import Js.

Section Script.
Context {rt : Runtime}.

(** The same expressions as in [subscribe.js], without the two
    [<description>] extractions. *)
Definition parseRSS (xml : string) : Channel * list Item :=
  ({| ch_title := ch_title (match_channel xml);
      ch_author := ch_author (match_channel xml);
      ch_imageUrl := ch_imageUrl (match_channel xml);
      ch_description := None |},
   map (λ ep,
          {| it_title := it_title ep; it_url := it_url ep;
             it_type := it_type ep; it_size := it_size ep;
             it_pubDate := it_pubDate ep; it_guid := it_guid ep;
             it_duration := it_duration ep; it_description := None |})
       (filter (λ ep, truthy (it_url ep) = true) (match_items xml))).

(** The deduplication key [ep.guid || ep.url]. *)
Definition identity (ep : Item) : string := or_else (it_guid ep) (it_url ep).

Definition identities (eps : list Episode) : list string :=
  map (λ ep, identity (ep_item ep)) eps.

(** The episodes on record for a podcast: [existing.episodes || []] of the
    list file, [[]] when there is none. *)
Definition stored_episodes (w : World) (podcastId : string) : list Episode :=
  match episode_lists w !! podcastId with
  | Some existing => list_episodes existing
  | None => []
  end.

Definition read_existingEpisodes (podcastId : string) : M (list Episode) := λ w,
  (Normal (stored_episodes w podcastId), w).

(** [new Set(existingEpisodes.map(ep => ep.guid || ep.url))] *)
Definition existingGuids_of (existingEpisodes : list Episode) : gset string :=
  list_to_set (identities existingEpisodes).

(** [episodes.filter(ep => !existingGuids.has(ep.guid || ep.url))] *)
Definition newEpisodes_of (existingGuids : gset string) (episodes : list Item)
  : list Item :=
  filter (λ ep, identity ep ∉ existingGuids) episodes.

(** [ep.guid || `new-${Date.now()}-${i}`]: the clock is read only when the
    item has no usable guid. *)
Definition new_id (ep : Item) (i : nat) : M string :=
  if truthy_opt (it_guid ep) then ret (or_else (it_guid ep) "")
  else let* now := Date_now_ in
       ret ("new-" +:+ pretty now +:+ "-" +:+ pretty i).

(** [newEpisodes.map((ep, i) => ({...ep, id: .., podcastId: subscription.id,
    isNew: true}))], from index [i] on. *)
Fixpoint mark_new (podcastId : string) (i : nat) (newEpisodes : list Item)
  : M (list Episode) :=
  match newEpisodes with
  | [] => ret []
  | ep :: rest =>
      let* id := new_id ep i in
      let* rest := mark_new podcastId (S i) rest in
      ret ({| ep_item := ep; ep_id := Some id;
              ep_podcastId := Some podcastId; ep_isNew := Some true |} :: rest)
  end.

(** The identifier that [mark_new] gives the item at index [i]: its guid,
    or a placeholder made of a reading of the clock and of [i]. *)
Definition id_assigned (i : nat) (e : Episode) : Prop :=
  if truthy_opt (it_guid (ep_item e))
  then ep_id e = it_guid (ep_item e)
  else ∃ now : N, ep_id e = Some ("new-" +:+ pretty now +:+ "-" +:+ pretty i).

(** [ep => ({...ep, isNew: false})] *)
Definition mark_known (ep : Episode) : Episode :=
  {| ep_item := ep_item ep; ep_id := ep_id ep;
     ep_podcastId := ep_podcastId ep; ep_isNew := Some false |}.

Definition updateFeed (subscription : Subscription) : M UpdateResult :=
  try_catch
    (let* response := fetch (sub_feedUrl subscription) in
     if negb (ok response)
     then ret {| updated := false;
                 upd_error := Some ("HTTP " +:+ pretty (status response));
                 newEpisodes := None; totalEpisodes := None |}
     else
     let '(channel, episodes) := parseRSS (text response) in
     let* existingEpisodes := read_existingEpisodes (sub_id subscription) in
     let existingGuids := existingGuids_of existingEpisodes in
     let newEpisodes := newEpisodes_of existingGuids episodes in
     let* _ :=
       if (0 <? length newEpisodes)%nat then
         let* marked := mark_new (sub_id subscription) 0 newEpisodes in
         let allEpisodes := (marked ++ map mark_known existingEpisodes)%list in
         let* lastUpdated := new_Date_toISOString in
         write_list (sub_id subscription)
           {| list_podcastId := sub_id subscription;
              list_count := length allEpisodes;
              list_lastUpdated := Some lastUpdated;
              list_episodes := allEpisodes |}
       else ret () in
     let* lastUpdated := new_Date_toISOString in
     let* _ :=
       write_feed (sub_id subscription)
         {| feed_podcastId := sub_id subscription;
            feed_channel :=
              {| ch_title := Some (sub_title subscription);
                 ch_author := ch_author channel;
                 ch_imageUrl :=
                   or_opt (ch_imageUrl channel) (Some (sub_imageUrl subscription));
                 ch_description := ch_description channel |};
            feed_episodeCount := length episodes;
            feed_lastUpdated := lastUpdated |} in
     ret {| updated := true; upd_error := None;
            newEpisodes := Some (length newEpisodes);
            totalEpisodes := Some (length episodes) |})
    (λ message,
     ret {| updated := false; upd_error := Some message;
            newEpisodes := None; totalEpisodes := None |}).

(** [subscriptions[id].lastUpdated = ..] *)
Definition set_lastUpdated (lastUpdated : string) (s : Subscription) : Subscription :=
  {| sub_id := sub_id s; sub_title := sub_title s; sub_author := sub_author s;
     sub_feedUrl := sub_feedUrl s; sub_imageUrl := sub_imageUrl s;
     sub_description := sub_description s;
     sub_episodeCount := sub_episodeCount s;
     sub_lastUpdated := lastUpdated;
     sub_subscribedAt := sub_subscribedAt s |}.

(** [subscriptions[id].episodeCount = ..] *)
Definition set_episodeCount (episodeCount : nat) (s : Subscription) : Subscription :=
  {| sub_id := sub_id s; sub_title := sub_title s; sub_author := sub_author s;
     sub_feedUrl := sub_feedUrl s; sub_imageUrl := sub_imageUrl s;
     sub_description := sub_description s;
     sub_episodeCount := episodeCount;
     sub_lastUpdated := sub_lastUpdated s;
     sub_subscribedAt := sub_subscribedAt s |}.

(** [if (results[id].totalEpisodes) subscriptions[id].episodeCount = ..]:
    [undefined] and [0] are falsy. *)
Definition refresh_episodeCount (r : UpdateResult) (s : Subscription) : Subscription :=
  match totalEpisodes r with
  | Some (S n) => set_episodeCount (S n) s
  | _ => s
  end.

(** The body of [for (const id of podcastIds)], over the object
    [subscriptions] and the object [results]. A key without a subscription
    makes [updateFeed] fail on [subscription.title], outside its [try]. *)
Fixpoint update_each (podcastIds : list string)
    (subscriptions : gmap string Subscription)
    (results : gmap string UpdateResult)
  : M (gmap string Subscription * gmap string UpdateResult) :=
  match podcastIds with
  | [] => ret (subscriptions, results)
  | id :: rest =>
      match subscriptions !! id with
      | None => throw "Cannot read properties of undefined (reading 'title')"
      | Some subscription =>
          let* result := updateFeed subscription in
          let results := <[id := result]> results in
          let* lastUpdated := new_Date_toISOString in
          let subscriptions :=
            <[id := refresh_episodeCount result
                      (set_lastUpdated lastUpdated subscription)]> subscriptions in
          update_each rest subscriptions results
      end
  end.



Definition main : M unit := λ w,
  match subscriptions_json w with
  | None => (Normal (), w)
  | Some subscriptions =>
      (let podcastIds := Object_keys subscriptions in
       let* updated := update_each podcastIds subscriptions ∅ in
       let* _ := write_subscriptions updated.1 in
       let* timestamp := new_Date_toISOString in
       write_last_update
         {| sum_timestamp := timestamp;
            subscriptionsUpdated := length podcastIds;
            sum_results := updated.2 |}) w
  end.

End Script.

End UpdateFeeds.

(** ** The search script *)

Module Search.
Import Js.

Record Config := {
  QUERY : string;
  REQUEST_ID : string;
  LIMIT : Z
}.

(** An element of [data.results] in the answer of the iTunes search. *)
Record iTunesItem := {
  collectionId : option Z;
  trackId : option Z;
  collectionName : option string;
  trackName : option string;
  artistName : option string;
  feedUrl : option string;
  artworkUrl600 : option string;
  artworkUrl100 : option string;
  description : option string;
  primaryGenreName : option string;
  trackCount : option Z
}.

(** Node's library as the script uses it: the query string that
    [URLSearchParams] builds from the term and the limit,
    [query.toLowerCase().trim()], and [JSON.parse(data).results || []],
    which throws on a body that is not JSON. *)
Class Library := {
  URLSearchParams_toString : string → string → string;
  toLowerCase_trim : string → string;
  JSON_parse_results : string → Completion (list iTunesItem)
}.

Section Script.
Context {rt : Runtime} {lib : Library}.
Variable cfg : Config.

(** [a || b] on numbers: [undefined] and [0] are falsy. *)
Definition num_or (a : option Z) (b : Z) : Z :=
  match a with
  | Some n => if bool_decide (n = 0%Z) then b else n
  | None => b
  end.

(** The script's own [fetch]: one [https.get], no redirects followed. *)
Definition fetch (url : string) : M Response := λ w,
  match protocol_get (clock w) url with
  | NetworkError e => (Thrown e, tick w)
  | IncomingMessage statusCode _ _ data =>
      (Normal {| ok := (statusCode <? 400)%nat; status := statusCode;
                 text := data |}, tick w)
  end.

(** The body of [for (const item of data.results || [])]. *)
Definition result_of (item : iTunesItem) : option SearchResult :=
  if truthy_opt (feedUrl item) then
    Some {| sr_itunesId := num_or (collectionId item) (num_or (trackId item) 0);
            sr_title := or_else (collectionName item) (or_else (trackName item) "");
            sr_author := or_else (artistName item) "";
            sr_feedUrl := or_else (feedUrl item) "";
            sr_imageUrl :=
              or_else (artworkUrl600 item) (or_else (artworkUrl100 item) "");
            sr_description := or_else (description item) "";
            sr_genre := or_else (primaryGenreName item) "";
            sr_trackCount := num_or (trackCount item) 0 |}
  else None.

Definition searchPodcasts (query : string) (limit : Z) : M (list SearchResult) :=
  let url := "https://itunes.apple.com/search?" +:+
             URLSearchParams_toString query (pretty limit) in
  let* response := fetch url in
  if negb (ok response)
  then throw ("Search failed: " +:+ pretty (status response)) else
  match JSON_parse_results (text response) with
  | Thrown e => throw e
  | Normal items => ret (omap result_of items)
  end.

Definition hashQuery (query : string) : string :=
  String.substring 0 12 (md5_hex (toLowerCase_trim query)).

(** [for (const result of results) if (result.itunesId) ..]: a lookup file
    is written only where there is none yet. *)
Fixpoint save_lookups (results : list SearchResult) : M unit :=
  match results with
  | [] => ret ()
  | result :: rest =>
      let* _ :=
        if bool_decide (sr_itunesId result ≠ 0%Z) then
          (λ w, match lookups w !! sr_itunesId result with
                | None => write_lookup (sr_itunesId result) result w
                | Some _ => (Normal (), w)
                end)
        else ret () in
      save_lookups rest
  end.

Definition main : World → nat * World :=
  λ w,
  if negb (truthy (QUERY cfg)) then (1, w) else
  match
    try_catch
      (let* results := searchPodcasts (QUERY cfg) (LIMIT cfg) in
       let* timestamp := new_Date_toISOString in
       let response :=
         {| res_success := Some true;
            res_requestId := Some (REQUEST_ID cfg);
            res_timestamp := Some timestamp;
            res_error := None;
            res_details := SearchDetails (QUERY cfg) (length results) results |} in
       let* _ := write_search (hashQuery (QUERY cfg)) response in
       let* _ := write_request (REQUEST_ID cfg) response in
       let* _ := save_lookups results in
       ret 0)
      (λ message,
       let* timestamp := new_Date_toISOString in
       let errorResponse :=
         {| res_success := Some false;
            res_requestId := Some (REQUEST_ID cfg);
            res_timestamp := Some timestamp;
            res_error := Some message;
            res_details := SearchFailed (QUERY cfg) |} in
       let* _ := write_request (REQUEST_ID cfg) errorResponse in
       ret 1) w
  with
  | (Normal code, w') => (code, w')
  | (Thrown _, w') => (1, w')
  end.

End Script.

End Search.

(** ** The download script *)

Module Download.
Import Js.

Record Config := {
  EPISODE_URL : string;
  EPISODE_ID : string;
  PODCAST_ID : string;
  REQUEST_ID : string;
  IA_ACCESS_KEY : string;
  IA_SECRET_KEY : string
}.

(** What [downloadFile] resolves with. *)
Record DownloadResult := {
  dl_size : nat;
  dl_contentType : option string
}.

(** Node's library and the two transfers. [URL_pathname] is [None] where
    [new URL] throws. The streams of [downloadFile] and of the upload are not
    modelled: [downloadFile_settles n url dest] says how the promise of
    [downloadFile(url, dest)] started at instant [n] settles, if it does, and
    [put_settles n path] what the [PUT] to the archive delivers: an [error]
    event, or a status and a body. *)
Class Library := {
  URL_pathname : string → option string;
  path_extname : string → string;
  path_basename : string → string;
  toLowerCase_replace : string → string;
  downloadFile_settles : nat → string → string → Settlement DownloadResult;
  put_settles : nat → string → Settlement (nat * string)
}.

Section Script.
Context {rt : Runtime} {lib : Library}.
Variable cfg : Config.

Definition uploadToInternetArchive (filePath identifier : string)
  : World → Settlement Storage * World := λ w,
  if negb (truthy (IA_ACCESS_KEY cfg)) || negb (truthy (IA_SECRET_KEY cfg))
  then (Settled (Normal (NotUploaded "no_credentials")), w)
  else
    let fileName := path_basename filePath in
    match put_settles (clock w) ("/" +:+ identifier +:+ "/" +:+ fileName) with
    | Pending => (Pending, tick w)
    | Settled (Thrown e) => (Settled (Thrown e), tick w)
    | Settled (Normal (statusCode, data)) =>
        if (200 <=? statusCode)%nat && (statusCode <? 300)%nat
        then (Settled (Normal
                (Uploaded ("https://archive.org/download/" +:+ identifier +:+
                           "/" +:+ fileName) identifier)), tick w)
        else (Settled (Thrown ("Upload failed: " +:+ pretty statusCode +:+
                               " - " +:+ data)), tick w)
    end.

(** The [catch] block of [main]. *)
Definition failed (message : string) : World → option nat * World := λ w,
  match
    (let* timestamp := new_Date_toISOString in
     let errorRecord :=
       {| res_success := Some false;
          res_requestId := Some (REQUEST_ID cfg);
          res_timestamp := Some timestamp;
          res_error := Some message;
          res_details := DownloadFailed (EPISODE_ID cfg) |} in
     write_request (REQUEST_ID cfg) errorRecord) w
  with
  | (_, w') => (Some 1, w')
  end.

(** [main]: the exit code, or [None] when a promise the script awaits never
    settles. An [EPISODE_URL] that [new URL] rejects throws before the [try]. *)
Definition main : World → option nat * World := λ w,
  if negb (truthy (EPISODE_URL cfg)) then (Some 1, w) else
  match URL_pathname (EPISODE_URL cfg) with
  | None => (Some 1, w)
  | Some pathname =>
      let ext :=
        if truthy (path_extname pathname) then path_extname pathname
        else ".mp3" in
      let tempFile := "temp/" +:+ EPISODE_ID cfg +:+ ext in
      match downloadFile_settles (clock w) (EPISODE_URL cfg) tempFile with
      | Pending => (None, tick w)
      | Settled (Thrown e) => failed e (tick w)
      | Settled (Normal downloadResult) =>
          let iaIdentifier :=
            toLowerCase_replace
              ("podcast-" +:+ PODCAST_ID cfg +:+ "-" +:+ EPISODE_ID cfg) in
          match uploadToInternetArchive tempFile iaIdentifier (tick w) with
          | (Pending, w1) => (None, w1)
          | (Settled (Thrown e), w1) => failed e w1
          | (Settled (Normal uploadResult), w1) =>
              match
                (let* timestamp := new_Date_toISOString in
                 let record :=
                   {| res_success := Some true;
                      res_requestId := Some (REQUEST_ID cfg);
                      res_timestamp := Some timestamp;
                      res_error := None;
                      res_details :=
                        DownloadDetails (EPISODE_ID cfg) (PODCAST_ID cfg)
                          (EPISODE_URL cfg) (dl_size downloadResult)
                          uploadResult |} in
                 let* _ := write_download (EPISODE_ID cfg) record in
                 write_request (REQUEST_ID cfg) record) w1
              with
              | (_, w2) => (Some 0, w2)
              end
          end
      end
  end.

End Script.

End Download.

(** ** A concrete runtime and world, for the examples *)

Module Scenario.
Import Js.

Definition feedUrl : string := "https://example.org/feed.xml".

Definition item (guid : option string) (url : string) : Item :=
  {| it_title := None; it_url := url; it_type := "audio/mpeg";
     it_size := Some 0%Z; it_pubDate := None; it_guid := guid;
     it_duration := None; it_description := None |}.

(** A runtime in which every [GET] is answered with status 200 and the feed
    lists [items]. The two digests are those of [feedUrl] and of the empty
    string. *)
Definition runtime (items : list Item) : Runtime :=
  {| Date_now := λ n, (1700000000000 + N.of_nat n)%N;
     toISOString := λ t, "T" +:+ pretty t;
     protocol_get := λ _ _, IncomingMessage 200 None None "<rss/>";
     md5_hex := λ s,
       if decide (s = feedUrl) then "ff94b2aca72a90b602d090d891e6d20d"
       else "d41d8cd98f00b204e9800998ecf8427e";
     Object_keys := λ m, (map_to_list m).*1;
     match_channel := λ _,
       {| ch_title := Some "Example"; ch_author := None;
          ch_imageUrl := None; ch_description := None |};
     match_items := λ _, items |}.

(** The answer to every [GET] in that runtime, as [fetch] resolves it. *)
Definition response : Response :=
  {| ok := true; status := 200; text := "<rss/>" |}.

(** A checkout without any data file. *)
Definition empty_world : World :=
  {| clock := 0; subscriptions_json := None; feeds := ∅; episode_lists := ∅;
     requests := ∅; search_cache := ∅; lookups := ∅; downloads := ∅;
     last_update := None; written := [] |}.

Definition config (action podcastId : string) : Subscribe.Config :=
  {| Subscribe.ACTION := action;
     Subscribe.FEED_URL := feedUrl;
     Subscribe.PODCAST_ID := podcastId;
     Subscribe.PODCAST_TITLE := "";
     Subscribe.REQUEST_ID := "1a2b3c4d-1700000000000" |}.

Definition podcastId : string := "ff94b2aca72a".

Definition subscription : Subscription :=
  {| sub_id := podcastId; sub_title := "Example"; sub_author := "";
     sub_feedUrl := feedUrl; sub_imageUrl := ""; sub_description := "";
     sub_episodeCount := 1; sub_lastUpdated := "T1699999999000";
     sub_subscribedAt := "T1699999999000" |}.

(** An episode on record, still marked as new by the refresh that found it. *)
Definition known (guid : string) (url : string) : Episode :=
  {| ep_item := item (Some guid) url; ep_id := Some guid;
     ep_podcastId := Some podcastId; ep_isNew := Some true |}.

(** A checkout with one subscription and one episode on record. *)
Definition subscribed_world : World :=
  {| clock := 0;
     subscriptions_json := Some {[ podcastId := subscription ]};
     feeds := ∅;
     episode_lists :=
       {[ podcastId :=
            {| list_podcastId := podcastId; list_count := 1;
               list_lastUpdated := Some "T1699999999000";
               list_episodes := [known "g2" "u2"] |} ]};
     requests := ∅; search_cache := ∅; lookups := ∅; downloads := ∅;
     last_update := None; written := [] |}.

(** A feed of three items, the last without a guid. *)
Definition feed3 : list Item :=
  [item (Some "g1") "u1"; item (Some "g2") "u2"; item None "u3"].

(** A feed that lists the same guid twice. *)
Definition feed_twice : list Item :=
  [item (Some "g1") "u1"; item (Some "g1") "u1-again"].

Definition search_library : Search.Library :=
  {| Search.URLSearchParams_toString := λ term limit,
       "term=" +:+ term +:+ "&media=podcast&entity=podcast&limit=" +:+ limit;
     Search.toLowerCase_trim := λ query, query;
     Search.JSON_parse_results := λ _, Normal [] |}.

Definition search_config : Search.Config :=
  {| Search.QUERY := "news"; Search.REQUEST_ID := "5e6f7a8b-1700000000001";
     Search.LIMIT := 25 |}.

Definition download_library : Download.Library :=
  {| Download.URL_pathname := λ _, Some "/media/episode.mp3";
     Download.path_extname := λ _, ".mp3";
     Download.path_basename := λ _, "episode.mp3";
     Download.toLowerCase_replace := λ identifier, identifier;
     Download.downloadFile_settles := λ _ _ _,
       Settled (Normal {| Download.dl_size := 1024;
                          Download.dl_contentType := Some "audio/mpeg" |});
     Download.put_settles := λ _ _, Settled (Normal (200, "")) |}.


End Scenario.

(** ** The dispatching half of the client ([GitHubActionsClient.triggerAction]) *)

Module Client.
Import Poller.

(** The reads and waits of [k] failed attempts in a row, from attempt
    [attempt] on. *)
Definition retries (attempt k : nat) : list Event :=
  flat_map (λ n, [Enqueue n; PostDelayed 2000]) (seq attempt k).

(** What [triggerAction] does on the network: the [POST] to [/dispatches],
    then what the poller does. *)
Inductive Activity :=
  | Dispatch (eventType requestId : string)
  | Polling (e : Event).

(** The poller's part of a run, and the number of events posted. *)
Definition polled (run : list Activity) : list Event :=
  omap (λ a, match a with Polling e => Some e | Dispatch _ _ => None end) run.

Definition dispatched (run : list Activity) : nat :=
  length (omap (λ a, match a with
                     | Dispatch eventType _ => Some eventType
                     | Polling _ => None
                     end) run).

Section Trigger.
(** What the [POST] of an event delivers, and the Result Store as the poller
    observes it. *)
Variable dispatches : string → string → ReadOutcome.
Variable store : nat → ReadOutcome.

(** [triggerAction(eventType, payload, requestId, callback)] with the token
    that [setGitHubToken] left ([None] is [null]). The [JSONException] that
    [payload.put] declares is not modelled. *)
Definition triggerAction (githubToken : option string)
    (eventType requestId : string) : Callback * list Activity :=
  match githubToken with
  | None => (onError "GitHub token not configured", [])
  | Some token =>
      if bool_decide (token = "")
      then (onError "GitHub token not configured", [])
      else
        match dispatches eventType requestId with
        | Failure e => (onError e, [Dispatch eventType requestId])
        | HttpResponse code body =>
            if bool_decide (code = 204) || bool_decide (code = 200)
            then
              let r := pollForResults store 0 in
              (r.1, Dispatch eventType requestId :: map Polling r.2)
            else (onError ("HTTP " +:+ pretty code),
                  [Dispatch eventType requestId])
        end
  end.

End Trigger.

End Client.

(** ** A network that only redirects, for the examples *)

Module Redirecting.
Import Js.

(** Every [GET] is answered with 302 and a [Location]. *)
Definition runtime : Runtime :=
  {| Date_now := Date_now (Runtime := Scenario.runtime []);
     toISOString := toISOString (Runtime := Scenario.runtime []);
     protocol_get := λ _ url,
       IncomingMessage 302 (Some (url +:+ "/")) None "";
     md5_hex := md5_hex (Runtime := Scenario.runtime []);
     Object_keys := Object_keys (Runtime := Scenario.runtime []);
     match_channel := match_channel (Runtime := Scenario.runtime []);
     match_items := match_items (Runtime := Scenario.runtime []) |}.

End Redirecting.

(** ** A catalogue and a failing download, for the examples *)

Module Catalogue.

Definition podcast (collectionId : Z) (feedUrl : option string)
  : Search.iTunesItem :=
  {| Search.collectionId := Some collectionId; Search.trackId := None;
     Search.collectionName := Some "Example"; Search.trackName := None;
     Search.artistName := None; Search.feedUrl := feedUrl;
     Search.artworkUrl600 := None; Search.artworkUrl100 := None;
     Search.description := None; Search.primaryGenreName := None;
     Search.trackCount := None |}.

(** The search answers with two podcasts, the second without a feed. *)
Definition library : Search.Library :=
  {| Search.URLSearchParams_toString :=
       Search.URLSearchParams_toString (Library := Scenario.search_library);
     Search.toLowerCase_trim :=
       Search.toLowerCase_trim (Library := Scenario.search_library);
     Search.JSON_parse_results := λ _,
       Js.Normal [podcast 42 (Some Scenario.feedUrl); podcast 43 None] |}.

(** Every download is answered with 404. *)
Definition not_found : Download.Library :=
  {| Download.URL_pathname :=
       Download.URL_pathname (Library := Scenario.download_library);
     Download.path_extname :=
       Download.path_extname (Library := Scenario.download_library);
     Download.path_basename :=
       Download.path_basename (Library := Scenario.download_library);
     Download.toLowerCase_replace :=
       Download.toLowerCase_replace (Library := Scenario.download_library);
     Download.downloadFile_settles := λ _ _ _,
       Js.Settled (Js.Thrown "Download failed: 404");
     Download.put_settles :=
       Download.put_settles (Library := Scenario.download_library) |}.

End Catalogue.

(** ** What the feed scripts keep true of the episode lists *)

Module Ledger.
Import Js.

(** Every list file says how many episodes it holds. *)
Definition counts_right (lists : gmap string EpisodeList) : Prop :=
  ∀ podcastId l, lists !! podcastId = Some l →
                 list_count l = length (list_episodes l).

(** Every list of [lists] is still there in [lists'], with its episodes in
    their order at the end of the list, after the episodes [added]; an
    episode is compared without its [isNew] mark. *)
Definition extended (lists lists' : gmap string EpisodeList) : Prop :=
  ∀ podcastId l, lists !! podcastId = Some l →
    ∃ l' added,
      lists' !! podcastId = Some l' ∧
      map UpdateFeeds.mark_known (list_episodes l') =
        added ++ map UpdateFeeds.mark_known (list_episodes l).

End Ledger.

(** ** The script of the top charts (second script of [scripts/update-feeds.js]) *)

Module UpdateTop.
Import Js.

(** The constants of the script: [COUNTRY] is [process.env.COUNTRY || 'IL'],
    [SINGLE_COUNTRY] is [process.env.SINGLE_COUNTRY], empty when not set. *)
Record Config := {
  COUNTRY : string;
  SINGLE_COUNTRY : string
}.

Definition COUNTRIES : list string := ["IL"; "US"; "GB"].

(** What [lookupPodcast] returns when it does not return [null]. *)
Record Lookup := {
  lk_itunesId : string;
  lk_title : string;
  lk_author : string;
  lk_feedUrl : string;
  lk_imageUrl : string;
  lk_genre : string
}.

(** The [result] of a file of [data/lookups]: the directory is shared with
    the search script, whose results have a number as [itunesId]. *)
Inductive LookupFile :=
  | TopLookup (result : Lookup)
  | SearchLookup (result : SearchResult).

(** [data.result.itunesId] as the key of a property. *)
Definition itunesId_of (data : LookupFile) : string :=
  match data with
  | TopLookup result => lk_itunesId result
  | SearchLookup result => pretty (sr_itunesId result)
  end.

(** [data/lookups_<country>.json] *)
Record CountryLookups := {
  cl_country : string;
  cl_count : nat;
  cl_lookups : gmap string Lookup
}.

(** [data/all_lookups.json] *)
Record AllLookups := {
  all_count : nat;
  all_updated : string;
  all_lookups : gmap string LookupFile
}.

(** The parsed chart: its serialisation, and the [id.label] of the entries
    of [topData.feed?.entry || []], [""] for an entry without one. It is
    [Thrown] where reading the entries throws (the chart is [null], the
    entries are not iterable), and an entry is [Thrown] where reading or
    matching its label throws. *)
Record TopData := {
  top_json : string;
  top_entries : Completion (list (Completion string))
}.

(** The files of the script, and the instant of the clock. A file of
    [data/lookups] is named by its key, [<key>.json], and holds
    [{ success: true, result }]. *)
Record Checkout := {
  instant : nat;
  top_files : gmap string string;
  lookup_files : gmap string LookupFile;
  country_files : gmap string CountryLookups;
  all_lookups_json : option AllLookups
}.

Definition later (c : Checkout) : Checkout :=
  {| instant := S (instant c); top_files := top_files c;
     lookup_files := lookup_files c; country_files := country_files c;
     all_lookups_json := all_lookups_json c |}.

(** Node's library as the script uses it: [JSON.parse] of the chart, the
    first element of [data.results] in the answer of a lookup ([None] when
    there is none, [Thrown] where [JSON.parse] or the access throws), and
    the names of the files of a directory, without [.json]. *)
Class Library := {
  JSON_parse_top : string → Completion TopData;
  JSON_parse_first_result : string → Completion (option Search.iTunesItem);
  readdirSync : gmap string LookupFile → list string
}.

(** [readdirSync] lists every file of the directory once. *)
Class LibraryLaws (lib : Library) : Prop := {
  readdirSync_NoDup : ∀ files, NoDup (readdirSync files);
  readdirSync_elem : ∀ files file,
    file ∈ readdirSync files ↔ is_Some (files !! file)
}.

(** A computation of the script ends with a value or an exception, or does
    not end: the [fetch] of this script follows redirects without a bound.
    [None] is a run in which some [fetch] is redirected more often than the
    number of redirects allowed for. *)
Definition T (A : Type) : Type := Checkout → option (Completion A * Checkout).

Definition pure {A} (a : A) : T A := λ c, Some (Normal a, c).

Definition raise {A} (message : string) : T A := λ c, Some (Thrown message, c).

Definition and_then {A B} (m : T A) (k : A → T B) : T B := λ c,
  match m c with
  | Some (Normal a, c') => k a c'
  | Some (Thrown e, c') => Some (Thrown e, c')
  | None => None
  end.

(** [try { m } catch (e) { h e.message }] *)
Definition catching {A} (m : T A) (h : string → T A) : T A := λ c,
  match m c with
  | Some (Normal a, c') => Some (Normal a, c')
  | Some (Thrown e, c') => h e c'
  | None => None
  end.

Notation "'let+' x ':=' m 'in' k" := (and_then m (λ x, k))
  (at level 10, x name, m at level 100, k at level 200).

Definition write_top (country : string) (topData : TopData) : T unit := λ c,
  Some (Normal (),
        {| instant := instant c;
           top_files := <[country := top_json topData]> (top_files c);
           lookup_files := lookup_files c; country_files := country_files c;
           all_lookups_json := all_lookups_json c |}).

Definition write_lookup (itunesId : string) (lookup : Lookup) : T unit := λ c,
  Some (Normal (),
        {| instant := instant c; top_files := top_files c;
           lookup_files := <[itunesId := TopLookup lookup]> (lookup_files c);
           country_files := country_files c;
           all_lookups_json := all_lookups_json c |}).

Definition write_country (country : string) (lookups : CountryLookups)
  : T unit := λ c,
  Some (Normal (),
        {| instant := instant c; top_files := top_files c;
           lookup_files := lookup_files c;
           country_files := <[country := lookups]> (country_files c);
           all_lookups_json := all_lookups_json c |}).

Definition write_all_lookups (all : AllLookups) : T unit := λ c,
  Some (Normal (),
        {| instant := instant c; top_files := top_files c;
           lookup_files := lookup_files c; country_files := country_files c;
           all_lookups_json := Some all |}).

(** [\d] *)
Definition is_digit (a : ascii) : bool :=
  (48 <=? nat_of_ascii a)%nat && (nat_of_ascii a <=? 57)%nat.

(** The longest prefix of digits. *)
Fixpoint digits (s : string) : string :=
  match s with
  | String a rest => if is_digit a then String a (digits rest) else ""
  | EmptyString => ""
  end.

(** [url.match(/id(\d+)/)]: the digits of the first [id] that is followed by
    a digit. *)
Fixpoint extractItunesId (url : string) : option string :=
  match url with
  | EmptyString => None
  | String a rest =>
      match rest with
      | String b after =>
          if bool_decide (a = "i"%char ∧ b = "d"%char) && truthy (digits after)
          then Some (digits after)
          else extractItunesId rest
      | EmptyString => None
      end
  end.

Section Script.
Context {rt : Runtime} {lib : Library}.
Variable cfg : Config.

(** The number of redirects that one [fetch] may follow in this run. *)
Variable redirects : nat.

(** [new Date().toISOString()] *)
Definition now : T string := λ c,
  Some (Normal (toISOString (Date_now (instant c))), later c).

(** [fetch(url)]: a redirect is followed whatever their number. *)
Fixpoint fetch_within (fuel : nat) (url : string) (c : Checkout)
  : option (Completion Response * Checkout) :=
  match protocol_get (instant c) url with
  | NetworkError e => Some (Thrown e, later c)
  | IncomingMessage statusCode location _ data =>
      match redirect statusCode location with
      | Some target =>
          match fuel with
          | 0 => None
          | S fuel => fetch_within fuel target (later c)
          end
      | None =>
          Some (Normal {| ok := (statusCode <? 400)%nat; status := statusCode;
                          text := data |}, later c)
      end
  end.

Definition fetch (url : string) : T Response := fetch_within redirects url.

Definition getTopPodcasts (country : string) : T TopData :=
  let url := "https://itunes.apple.com/" +:+ country +:+
             "/rss/toppodcasts/limit=25/explicit=true/json" in
  let+ response := fetch url in
  if negb (ok response)
  then raise ("Failed to fetch top podcasts for " +:+ country) else
  match JSON_parse_top (text response) with
  | Thrown e => raise e
  | Normal topData => pure topData
  end.

Definition lookupPodcast (itunesId : string) : T (option Lookup) :=
  let url := "https://itunes.apple.com/lookup?id=" +:+ itunesId in
  let+ response := fetch url in
  if negb (ok response) then pure None else
  match JSON_parse_first_result (text response) with
  | Thrown e => raise e
  | Normal None => pure None
  | Normal (Some item) =>
      pure (Some
        {| lk_itunesId := itunesId;
           lk_title :=
             or_else (Search.collectionName item)
               (or_else (Search.trackName item) "");
           lk_author := or_else (Search.artistName item) "";
           lk_feedUrl := or_else (Search.feedUrl item) "";
           lk_imageUrl :=
             or_else (Search.artworkUrl600 item)
               (or_else (Search.artworkUrl100 item) "");
           lk_genre := or_else (Search.primaryGenreName item) "" |})
  end.

(** The inner [try] of the loop of [processCountry], over the object
    [lookups]: a lookup that fails is logged and skipped. *)
Definition lookup_and_save (itunesId : string) (lookups : gmap string Lookup)
  : T (gmap string Lookup) :=
  catching
    (let+ lookup := lookupPodcast itunesId in
     match lookup with
     | Some lookup =>
         if truthy (lk_feedUrl lookup) then
           let+ _ := write_lookup itunesId lookup in
           pure (<[itunesId := lookup]> lookups)
         else pure lookups
     | None => pure lookups
     end)
    (λ _, pure lookups).

(** [for (const entry of entries)]. The pause of 100 ms after a lookup is not
    modelled. *)
Fixpoint lookup_each (entries : list (Completion string))
    (lookups : gmap string Lookup) : T (gmap string Lookup) :=
  match entries with
  | [] => pure lookups
  | Thrown e :: _ => raise e
  | Normal idUrl :: rest =>
      match extractItunesId idUrl with
      | Some itunesId =>
          let+ lookups := lookup_and_save itunesId lookups in
          lookup_each rest lookups
      | None => lookup_each rest lookups
      end
  end.

Definition processCountry (country : string) : T (gmap string Lookup) :=
  catching
    (let+ topData := getTopPodcasts country in
     let+ _ := write_top country topData in
     match top_entries topData with
     | Thrown e => raise e
     | Normal entries =>
         let+ lookups := lookup_each entries ∅ in
         let+ _ := write_country country
                     {| cl_country := country; cl_count := size lookups;
                        cl_lookups := lookups |} in
         pure lookups
     end)
    (λ _, pure ∅).

(** [for (const country of COUNTRIES) if (country !== COUNTRY) ..] *)
Fixpoint process_others (countries : list string) : T unit :=
  match countries with
  | [] => pure ()
  | country :: rest =>
      let+ _ :=
        if bool_decide (country ≠ COUNTRY cfg)
        then let+ _ := processCountry country in pure ()
        else pure () in
      process_others rest
  end.

(** The master file: [allLookups[data.result.itunesId] = data.result] for
    every file of the directory. *)
Definition collect (files : gmap string LookupFile) : gmap string LookupFile :=
  foldl (λ allLookups file,
           match files !! file with
           | Some data => <[itunesId_of data := data]> allLookups
           | None => allLookups
           end) ∅ (readdirSync files).

Definition main : T unit :=
  let+ _ := processCountry (COUNTRY cfg) in
  let+ _ :=
    if negb (truthy (SINGLE_COUNTRY cfg)) then process_others COUNTRIES
    else pure () in
  λ c,
    (let allLookups := collect (lookup_files c) in
     let+ updated := now in
     write_all_lookups
       {| all_count := size allLookups; all_updated := updated;
          all_lookups := allLookups |}) c.

End Script.

(** The files of a checkout, without the clock. *)
Definition disk (c : Checkout) :=
  (top_files c, lookup_files c, country_files c, all_lookups_json c).

(** A lookup as [processCountry] saves it under [itunesId]. *)
Definition saved_as (itunesId : string) (lookup : Lookup) : Prop :=
  lk_itunesId lookup = itunesId ∧ lk_feedUrl lookup ≠ "" ∧
  itunesId ≠ "" ∧ digits itunesId = itunesId.

(** Every file of the directory is named by the [itunesId] of its result. *)
Definition named_by_id (files : gmap string LookupFile) : Prop :=
  ∀ file data, files !! file = Some data → itunesId_of data = file.

(** Every file of [files'] is the file of [files], or a lookup that
    [processCountry] saved under its name. *)
Definition saved_over (files files' : gmap string LookupFile) : Prop :=
  ∀ file,
    files' !! file = files !! file ∨
    ∃ lookup, files' !! file = Some (TopLookup lookup) ∧
              lk_itunesId lookup = file ∧ lk_feedUrl lookup ≠ "".

End UpdateTop.

(** ** A chart of one podcast, for the examples *)

Module Charts.
Import Js.

Definition library : UpdateTop.Library :=
  {| UpdateTop.JSON_parse_top := λ _,
       Normal {| UpdateTop.top_json := "{}";
                 UpdateTop.top_entries :=
                   Normal [Normal "https://podcasts.apple.com/podcast/id42"] |};
     UpdateTop.JSON_parse_first_result := λ _,
       Normal (Some (Catalogue.podcast 42 (Some Scenario.feedUrl)));
     UpdateTop.readdirSync := λ files, (map_to_list files).*1 |}.

(** A checkout without any data file. *)
Definition empty : UpdateTop.Checkout :=
  {| UpdateTop.instant := 0; UpdateTop.top_files := ∅;
     UpdateTop.lookup_files := ∅; UpdateTop.country_files := ∅;
     UpdateTop.all_lookups_json := None |}.

Definition config (single : string) : UpdateTop.Config :=
  {| UpdateTop.COUNTRY := "IL"; UpdateTop.SINGLE_COUNTRY := single |}.

End Charts.

(** * Properties *)

(** ** The poller *)

Section PollerFacts.
Import Poller.
Variable store : nat → ReadOutcome.

Lemma poll_exhausted attempt :
  (60 < attempt)%nat →
  pollForResults store attempt = (onError "Timeout waiting for results", []).
Proof.
  intros H. simp pollForResults.
  destruct (decide (60 < attempt)%nat); [reflexivity | lia].
Qed.

Lemma poll_failure attempt e :
  (attempt ≤ 60)%nat → store attempt = Failure e →
  pollForResults store attempt =
    ((pollForResults store (attempt + 1)).1,
     Enqueue attempt :: PostDelayed 2000 :: (pollForResults store (attempt + 1)).2).
Proof.
  intros H Hs. rewrite pollForResults_equation_1.
  destruct (decide (60 < attempt)%nat); [lia|].
  simpl. rewrite Hs. reflexivity.
Qed.

Lemma poll_not_found attempt body :
  (attempt ≤ 60)%nat → store attempt = HttpResponse 404 body →
  pollForResults store attempt =
    ((pollForResults store (attempt + 1)).1,
     Enqueue attempt :: PostDelayed 2000 :: (pollForResults store (attempt + 1)).2).
Proof.
  intros H Hs. rewrite pollForResults_equation_1.
  destruct (decide (60 < attempt)%nat); [lia|].
  simpl. rewrite Hs. reflexivity.
Qed.

Lemma poll_present attempt code body :
  (attempt ≤ 60)%nat → store attempt = HttpResponse code body →
  isSuccessful code = true →
  pollForResults store attempt = (onSuccess body, [Enqueue attempt]).
Proof.
  intros H Hs Hc. rewrite pollForResults_equation_1.
  destruct (decide (60 < attempt)%nat); [lia|].
  simpl. rewrite Hs. simpl. rewrite Hc. reflexivity.
Qed.

Lemma poll_http_error attempt code body :
  (attempt ≤ 60)%nat → store attempt = HttpResponse code body →
  isSuccessful code = false → code ≠ 404 →
  pollForResults store attempt =
    (onError ("HTTP " +:+ pretty code), [Enqueue attempt]).
Proof.
  intros H Hs Hc Hne. rewrite pollForResults_equation_1.
  destruct (decide (60 < attempt)%nat); [lia|].
  simpl. rewrite Hs. simpl. rewrite Hc. simpl.
  destruct (decide (code = 404)); [contradiction | reflexivity].
Qed.

Lemma reads_retry attempt millis tr :
  reads (Enqueue attempt :: PostDelayed millis :: tr) = S (reads tr).
Proof. reflexivity. Qed.

Lemma waited_retry attempt millis tr :
  waited (Enqueue attempt :: PostDelayed millis :: tr) = (millis + waited tr)%Z.
Proof. reflexivity. Qed.

(** A store that never shows the record: every read fails or says 404. The
    poller started at [attempt] gives up after reading once for each of the
    attempts [attempt .. 60]. *)
Lemma poll_absent_gives_up k :
  (∀ n, transport_failure (store n) ∨ not_found (store n)) →
  ∀ attempt, (attempt + k = 61)%nat →
  (pollForResults store attempt).1 = onError "Timeout waiting for results" ∧
  reads (pollForResults store attempt).2 = k ∧
  waited (pollForResults store attempt).2 = (2000 * Z.of_nat k)%Z.
Proof.
  intros Habs. induction k as [|k IH]; intros attempt Hk.
  - rewrite poll_exhausted by lia. done.
  - destruct (IH (attempt + 1)%nat ltac:(lia)) as (Hcb & Hr & Hw).
    assert (pollForResults store attempt =
      ((pollForResults store (attempt + 1)).1,
       Enqueue attempt :: PostDelayed 2000 ::
         (pollForResults store (attempt + 1)).2)) as ->.
    { destruct (store attempt) as [e|code body] eqn:Hs.
      - apply (poll_failure _ e); [lia | done].
      - destruct (Habs attempt) as [Hf|Hn]; rewrite Hs in *; [done|].
        simpl in Hn. subst code. apply (poll_not_found _ body); [lia | done]. }
    simpl. split; [done|].
    rewrite reads_retry, waited_retry, Hr, Hw. lia.
Qed.

End PollerFacts.

(** C3, as the code runs it. A request whose record is never written: every
    read of the Result Store says 404. The poller reports the timeout, after
    61 reads (attempts 0 to 60) and 61 waits of two seconds, and not after
    the 60 attempts that the comment on [attempt > 60] announces. *)
Theorem poll_never_written_reads_61 :
  let run := Poller.pollForResults (λ _, Poller.HttpResponse 404 "") 0 in
  run.1 = Poller.onError "Timeout waiting for results" ∧
  Poller.reads run.2 = 61%nat ∧
  Poller.reads run.2 ≠ 60%nat ∧
  Poller.waited run.2 = 122000%Z.
Proof.
  intros run.
  destruct (poll_absent_gives_up (λ _, Poller.HttpResponse 404 "") 61
              (λ _, or_intror eq_refl) 0%nat eq_refl) as (Hcb & Hr & Hw).
  fold run in Hcb, Hr, Hw. rewrite Hcb, Hr, Hw. repeat split; lia.
Qed.





(** ** The worker scripts: what the helpers do to the world *)

Section HelperFacts.
Import Js.
Context {rt : Runtime}.

Lemma files_inv w w' :
  files w' = files w →
  subscriptions_json w' = subscriptions_json w ∧ feeds w' = feeds w ∧
  episode_lists w' = episode_lists w ∧ requests w' = requests w ∧
  written w' = written w.
Proof. unfold files. intros [= ? ? ? ? ? ? ? ? ?]. done. Qed.

(** A fetch only lets time pass. *)
Lemma request_files url redirectCount w :
  files (request url redirectCount w).2 = files w.
Proof.
  funelim (request url redirectCount w); try reflexivity.
  match goal with IH : files _ = files _ |- _ => rewrite IH end.
  reflexivity.
Qed.

Lemma fetch_files url w r w1 : fetch url w = (r, w1) → files w1 = files w.
Proof. intros H. pose proof (request_files url 0 w) as Hf. unfold fetch in H. by rewrite H in Hf. Qed.

Lemma request_clock url redirectCount w :
  clock w ≤ clock (request url redirectCount w).2.
Proof.
  funelim (request url redirectCount w); simpl; try lia.
  match goal with IH : _ ≤ _ |- _ => simpl in IH; lia end.
Qed.

Lemma fetch_clock url w r w1 : fetch url w = (r, w1) → clock w ≤ clock w1.
Proof.
  intros H. pose proof (request_clock url 0 w) as Hc.
  unfold fetch in H. by rewrite H in Hc.
Qed.

End HelperFacts.

Section UpdateFeedsFacts.
Import Js UpdateFeeds.
Context {rt : Runtime}.

Lemma mark_new_spec podcastId newEpisodes : ∀ i w,
  ∃ marked w',
    mark_new podcastId i newEpisodes w = (Normal marked, w') ∧
    files w' = files w ∧
    clock w ≤ clock w' ∧
    map ep_item marked = newEpisodes ∧
    (∀ j e, marked !! j = Some e →
       ep_isNew e = Some true ∧ ep_podcastId e = Some podcastId ∧
       id_assigned (i + j) e).
Proof.
  induction newEpisodes as [|ep rest IH]; intros i w.
  - exists [], w. simpl. split_and!; try done.
  - simpl. unfold bind, new_id.
    destruct (truthy_opt (it_guid ep)) eqn:Hg.
    + simpl. destruct (IH (S i) w) as (marked & w' & Hm & Hf & Hc & Hmap & Hall).
      rewrite Hm. simpl. eexists _, w'. split; [reflexivity|].
      split; [done|]. split; [done|]. split; [simpl; by rewrite Hmap|].
      intros [|j] e He; simpl in He.
      * injection He as <-. simpl. split_and!; try done.
        unfold id_assigned. simpl. rewrite Hg.
        destruct (it_guid ep) as [g|]; [|done]. simpl in *. by rewrite Hg.
      * destruct (Hall j e He) as (? & ? & ?). split_and!; try done.
        by replace (i + S j)%nat with (S i + j)%nat by lia.
    + simpl. destruct (IH (S i) (tick w)) as (marked & w' & Hm & Hf & Hc & Hmap & Hall).
      rewrite Hm. simpl. eexists _, w'. split; [reflexivity|].
      split; [by rewrite Hf|]. split; [simpl in Hc; lia|].
      split; [simpl; by rewrite Hmap|].
      intros [|j] e He; simpl in He.
      * injection He as <-. simpl. split_and!; try done.
        unfold id_assigned. simpl. rewrite Hg.
        exists (Date_now (clock w)). by rewrite Nat.add_0_r.
      * destruct (Hall j e He) as (? & ? & ?). split_and!; try done.
        by replace (i + S j)%nat with (S i + j)%nat by lia.
Qed.

End UpdateFeedsFacts.

Section JournalFacts.
Import Js.

Lemma request_writes_app tr tr' :
  request_writes (tr ++ tr') = request_writes tr ++ request_writes tr'.
Proof. unfold request_writes. apply omap_app. Qed.

Lemma request_writes_feed tr podcastId :
  request_writes (tr ++ [feed_path podcastId]) = request_writes tr.
Proof. rewrite request_writes_app. simpl. by rewrite app_nil_r. Qed.

Lemma request_writes_list tr podcastId :
  request_writes (tr ++ [list_path podcastId]) = request_writes tr.
Proof. rewrite request_writes_app. simpl. by rewrite app_nil_r. Qed.

Lemma request_writes_request tr requestId :
  request_writes (tr ++ [request_path requestId]) = request_writes tr ++ [requestId].
Proof. by rewrite request_writes_app. Qed.

End JournalFacts.

Section UpdateFeedFacts.
Import Js UpdateFeeds.
Context {rt : Runtime}.

Local Arguments parseRSS : simpl never.
Local Arguments newEpisodes_of : simpl never.
Local Arguments existingGuids_of : simpl never.
Local Arguments mark_new : simpl never.

(** The run of [updateFeed] on a feed that was fetched. *)
Lemma updateFeed_fetched subscription w response w1 :
  fetch (sub_feedUrl subscription) w = (Normal response, w1) →
  ok response = true →
  let episodes := (parseRSS (text response)).2 in
  let existingEpisodes := stored_episodes w (sub_id subscription) in
  let newEpisodes :=
    newEpisodes_of (existingGuids_of existingEpisodes) episodes in
  ∃ marked w',
    updateFeed subscription w =
      (Normal {| updated := true; upd_error := None;
                 newEpisodes := Some (length newEpisodes);
                 totalEpisodes := Some (length episodes) |}, w') ∧
    map ep_item marked = newEpisodes ∧
    (∀ j e, marked !! j = Some e →
       ep_isNew e = Some true ∧ ep_podcastId e = Some (sub_id subscription) ∧
       id_assigned j e) ∧
    stored_episodes w' (sub_id subscription) =
      match newEpisodes with
      | [] => existingEpisodes
      | _ => marked ++ map mark_known existingEpisodes
      end ∧
    (newEpisodes = [] → episode_lists w' = episode_lists w) ∧
    (∀ k, k ≠ sub_id subscription → episode_lists w' !! k = episode_lists w !! k) ∧
    subscriptions_json w' = subscriptions_json w ∧
    requests w' = requests w ∧
    request_writes (written w') = request_writes (written w) ∧
    clock w ≤ clock w'.
Proof.
  intros Hfetch Hok. cbv zeta.
  destruct (files_inv _ _ (fetch_files _ _ _ _ Hfetch))
    as (Hsubs & Hfeeds & Hlists & Hreqs & Hwr).
  pose proof (fetch_clock _ _ _ _ Hfetch) as Hclock.
  assert (stored_episodes w1 (sub_id subscription) =
          stored_episodes w (sub_id subscription)) as Hst.
  { unfold stored_episodes. by rewrite Hlists. }
  unfold updateFeed, try_catch, bind. rewrite Hfetch, Hok.
  destruct (parseRSS (text response)) as [channel episodes].
  cbn [negb snd]. unfold read_existingEpisodes. rewrite Hst.
  remember (stored_episodes w (sub_id subscription)) as existingEpisodes eqn:HL.
  destruct (newEpisodes_of (existingGuids_of existingEpisodes) episodes)
    as [|ep rest] eqn:Hnew.
  - simpl. exists []. eexists. split; [reflexivity|]. simpl.
    split_and!; try done.
    + intros k _. by rewrite Hlists.
    + by rewrite request_writes_feed, Hwr.
    + lia.
  - destruct (mark_new_spec (sub_id subscription) (ep :: rest) 0 w1)
      as (marked & w2 & Hm & Hf & Hclock2 & Hmap & Hall).
    destruct (files_inv _ _ Hf) as (Hsubs2 & Hfeeds2 & Hlists2 & Hreqs2 & Hwr2).
    change (0 <? length (ep :: rest))%nat with true. cbv iota.
    unfold bind. rewrite Hm. simpl.
    exists marked. eexists. split; [reflexivity|]. simpl.
    split_and!; try done.
    + unfold stored_episodes. simpl. by rewrite lookup_insert_eq.
    + intros k Hk. by rewrite lookup_insert_ne, Hlists2, Hlists.
    + congruence.
    + congruence.
    + rewrite request_writes_feed, request_writes_list. congruence.
    + lia.
Qed.

End UpdateFeedFacts.

Section MergeFacts.
Import Js UpdateFeeds.
Context {rt : Runtime}.

Lemma identities_app l1 l2 : identities (l1 ++ l2) = identities l1 ++ identities l2.
Proof. apply map_app. Qed.

Lemma identities_mark_known l : identities (map mark_known l) = identities l.
Proof. unfold identities. rewrite map_map. reflexivity. Qed.

Lemma identities_items l : identities l = map identity (map ep_item l).
Proof. unfold identities. by rewrite map_map. Qed.

(** An item is new exactly when its key is not the key of an episode on
    record. *)
Lemma elem_of_newEpisodes_of existingEpisodes episodes ep :
  ep ∈ newEpisodes_of (existingGuids_of existingEpisodes) episodes ↔
  ep ∈ episodes ∧ identity ep ∉ identities existingEpisodes.
Proof.
  unfold newEpisodes_of, existingGuids_of.
  rewrite list_elem_of_filter, elem_of_list_to_set. tauto.
Qed.

Lemma newEpisodes_of_nil existingEpisodes episodes :
  (∀ ep, ep ∈ episodes → identity ep ∈ identities existingEpisodes) →
  newEpisodes_of (existingGuids_of existingEpisodes) episodes = [].
Proof.
  intros Hknown.
  destruct (newEpisodes_of _ _) as [|ep rest] eqn:Hnew; [done|].
  assert (ep ∈ newEpisodes_of (existingGuids_of existingEpisodes) episodes)
    as Hin by (rewrite Hnew; left).
  apply elem_of_newEpisodes_of in Hin as [Hin Hnot].
  destruct Hnot. by apply Hknown.
Qed.

Lemma merged_identity_set existingEpisodes episodes :
  (list_to_set
     (map identity (newEpisodes_of (existingGuids_of existingEpisodes) episodes)
      ++ identities existingEpisodes) : gset string) =
  list_to_set (identities existingEpisodes) ∪ list_to_set (map identity episodes).
Proof.
  apply set_eq. intros x.
  rewrite list_to_set_app, !elem_of_union, !elem_of_list_to_set, !list_elem_of_fmap.
  split.
  - intros [(ep & -> & Hin)|Hin]; [|by left].
    apply elem_of_newEpisodes_of in Hin as [Hin _]. right. eauto.
  - intros [Hin|(ep & -> & Hin)]; [by right|].
    destruct (decide (identity ep ∈ identities existingEpisodes)) as [Hk|Hk].
    + by right.
    + left. exists ep. split; [done|]. by apply elem_of_newEpisodes_of.
Qed.

Lemma newEpisodes_of_filter existingEpisodes episodes :
  newEpisodes_of (existingGuids_of existingEpisodes) episodes =
  filter (λ ep, identity ep ∉ identities existingEpisodes) episodes.
Proof.
  unfold newEpisodes_of, existingGuids_of. apply list_filter_iff.
  intros ep. by rewrite elem_of_list_to_set.
Qed.

Lemma occurrences_app key l1 l2 :
  occurrences key (l1 ++ l2) = occurrences key l1 + occurrences key l2.
Proof. unfold occurrences. by rewrite filter_app, length_app. Qed.

Lemma occurrences_absent key l : key ∉ l → occurrences key l = 0.
Proof.
  unfold occurrences. induction l as [|k l IH]; [done|].
  rewrite not_elem_of_cons. intros [Hne Hl].
  rewrite filter_cons_False by done. by apply IH.
Qed.

(** Dropping the items whose key is on record does not change how often a
    key that is not on record occurs. *)
Lemma occurrences_fresh key existingEpisodes episodes :
  key ∉ identities existingEpisodes →
  occurrences key
    (map identity
       (filter (λ ep, identity ep ∉ identities existingEpisodes) episodes)
     ++ identities existingEpisodes) =
  occurrences key (map identity episodes).
Proof.
  intros Hkey. rewrite occurrences_app, (occurrences_absent _ _ Hkey), Nat.add_0_r.
  unfold occurrences. induction episodes as [|ep rest IH]; [done|].
  destruct (decide (identity ep ∈ identities existingEpisodes)) as [Hk|Hk].
  - rewrite filter_cons_False by tauto. simpl.
    rewrite filter_cons_False; [done|]. intros He. by rewrite He in Hk.
  - rewrite filter_cons_True by done. simpl.
    destruct (decide (identity ep = key)) as [He|He].
    + rewrite !filter_cons_True by done. simpl. by rewrite IH.
    + rewrite !filter_cons_False by done. done.
Qed.

End MergeFacts.

Section SyncTheorems.
Import Js UpdateFeeds.
Context {rt : Runtime}.

(** The shape of the list on record after a refresh. *)
Lemma updateFeed_merged subscription w response w1 :
  fetch (sub_feedUrl subscription) w = (Normal response, w1) →
  ok response = true →
  let existingEpisodes := stored_episodes w (sub_id subscription) in
  let newEpisodes :=
    newEpisodes_of (existingGuids_of existingEpisodes)
      (parseRSS (text response)).2 in
  let merged :=
    stored_episodes (updateFeed subscription w).2 (sub_id subscription) in
  ∃ marked,
    map ep_item marked = newEpisodes ∧
    merged = marked ++ match newEpisodes with
                       | [] => existingEpisodes
                       | _ => map mark_known existingEpisodes
                       end ∧
    identities merged = map identity newEpisodes ++ identities existingEpisodes.
Proof.
  intros Hfetch Hok existingEpisodes newEpisodes merged.
  destruct (updateFeed_fetched subscription w response w1 Hfetch Hok)
    as (marked & w' & Hrun & Hitems & _ & Hstored & _).
  fold existingEpisodes newEpisodes in Hitems, Hstored.
  assert (merged = marked ++ match newEpisodes with
                             | [] => existingEpisodes
                             | _ => map mark_known existingEpisodes
                             end) as Hmerged.
  { unfold merged. rewrite Hrun. simpl. rewrite Hstored.
    destruct newEpisodes; [|done].
    apply (f_equal length) in Hitems. rewrite length_map in Hitems.
    by destruct marked. }
  exists marked. split; [done|]. split; [done|].
  rewrite Hmerged, identities_app, identities_items, Hitems.
  destruct newEpisodes; [done|]. by rewrite identities_mark_known.
Qed.

(** C1. When the feed was fetched, the list on record after [updateFeed] is
    the new items — the fetched items whose key (guid, else url) is not the
    key of an episode on record — in the order of the feed, followed by the
    episodes on record in their order: as they were when nothing is new, with
    only their [isNew] mark reset otherwise. So the keys of the merged list
    are those of the new items followed by those on record, its set of keys
    is the union of the keys on record and of the keys fetched, its length is
    the length of the record plus the number of new items, and every key on
    record is still there. *)
Theorem updateFeed_merges_new_first subscription w response w1 :
  fetch (sub_feedUrl subscription) w = (Normal response, w1) →
  ok response = true →
  let episodes := (parseRSS (text response)).2 in
  let existingEpisodes := stored_episodes w (sub_id subscription) in
  let newEpisodes :=
    newEpisodes_of (existingGuids_of existingEpisodes) episodes in
  let merged :=
    stored_episodes (updateFeed subscription w).2 (sub_id subscription) in
  (∀ ep, ep ∈ newEpisodes ↔
         ep ∈ episodes ∧ identity ep ∉ identities existingEpisodes) ∧
  (∃ marked,
     map ep_item marked = newEpisodes ∧
     merged = marked ++ match newEpisodes with
                        | [] => existingEpisodes
                        | _ => map mark_known existingEpisodes
                        end) ∧
  identities merged = map identity newEpisodes ++ identities existingEpisodes ∧
  (list_to_set (identities merged) : gset string) =
    list_to_set (identities existingEpisodes) ∪ list_to_set (map identity episodes) ∧
  length merged = length existingEpisodes + length newEpisodes ∧
  (∀ key, key ∈ identities existingEpisodes → key ∈ identities merged).
Proof.
  intros Hfetch Hok episodes existingEpisodes newEpisodes merged.
  destruct (updateFeed_merged subscription w response w1 Hfetch Hok)
    as (marked & Hitems & Hmerged & Hids).
  fold episodes existingEpisodes newEpisodes merged in Hitems, Hmerged, Hids.
  split; [intros ep; apply elem_of_newEpisodes_of|].
  split; [by exists marked|]. split; [done|].
  split; [rewrite Hids; apply merged_identity_set|].
  split.
  - rewrite <- (length_map (λ ep, identity (ep_item ep)) merged).
    fold (identities merged). rewrite Hids, length_app, length_map.
    unfold identities. rewrite length_map. lia.
  - intros key Hkey. rewrite Hids. apply elem_of_app. by right.
Qed.

(** C5. When the feed was fetched and every item it lists has the key of an
    episode on record — in particular when it lists nothing — [updateFeed]
    reports zero new episodes and leaves every list file as it was. *)
Theorem updateFeed_unchanged_feed subscription w response w1 :
  fetch (sub_feedUrl subscription) w = (Normal response, w1) →
  ok response = true →
  (∀ ep, ep ∈ (parseRSS (text response)).2 →
         identity ep ∈ identities (stored_episodes w (sub_id subscription))) →
  ∃ result,
    (updateFeed subscription w).1 = Normal result ∧
    updated result = true ∧
    newEpisodes result = Some 0 ∧
    episode_lists (updateFeed subscription w).2 = episode_lists w ∧
    stored_episodes (updateFeed subscription w).2 (sub_id subscription) =
      stored_episodes w (sub_id subscription).
Proof.
  intros Hfetch Hok Hknown.
  destruct (updateFeed_fetched subscription w response w1 Hfetch Hok)
    as (marked & w' & Hrun & _ & _ & Hstored & Hlists & _).
  rewrite (newEpisodes_of_nil _ _ Hknown) in Hrun, Hstored, Hlists.
  rewrite Hrun. simpl. eexists. split; [reflexivity|].
  simpl. split_and!; try done. by apply Hlists.
Qed.

(** C8, amended. When the feed was fetched, every item of the feed whose key
    is not on record is new, whether or not another item of the same feed
    has the same key: the count of new episodes is the number of such items,
    a key that is not on record occurs in the merged list as often as in the
    feed, and the new entries carry the fields of those items, one by one in
    the order of the feed. *)
Theorem updateFeed_keeps_duplicates subscription w response w1 :
  fetch (sub_feedUrl subscription) w = (Normal response, w1) →
  ok response = true →
  let episodes := (parseRSS (text response)).2 in
  let existingEpisodes := stored_episodes w (sub_id subscription) in
  let fresh :=
    filter (λ ep, identity ep ∉ identities existingEpisodes) episodes in
  let merged :=
    stored_episodes (updateFeed subscription w).2 (sub_id subscription) in
  (∃ result,
     (updateFeed subscription w).1 = Normal result ∧
     newEpisodes result = Some (length fresh)) ∧
  (∀ key, key ∉ identities existingEpisodes →
     occurrences key (identities merged) =
     occurrences key (map identity episodes)) ∧
  map ep_item (take (length fresh) merged) = fresh.
Proof.
  intros Hfetch Hok episodes existingEpisodes fresh merged.
  destruct (updateFeed_merged subscription w response w1 Hfetch Hok)
    as (marked & Hitems & Hmerged & Hids).
  destruct (updateFeed_fetched subscription w response w1 Hfetch Hok)
    as (_ & w' & Hrun & _).
  fold episodes existingEpisodes merged in Hitems, Hmerged, Hids, Hrun.
  rewrite newEpisodes_of_filter in Hitems, Hids, Hrun. fold fresh in Hitems, Hids, Hrun.
  split; [|split].
  - rewrite Hrun. eexists. split; reflexivity.
  - intros key Hkey. rewrite Hids. unfold fresh. by apply occurrences_fresh.
  - rewrite Hmerged, <- Hitems, length_map, take_app_length. done.
Qed.

End SyncTheorems.

Section SubscribeFacts.
Import Js Subscribe.
Context {rt : Runtime}.

Local Arguments parseRSS : simpl never.
Local Arguments episodesList : simpl never.

(** The run of the script on a feed that was fetched. *)
Lemma main_subscribed cfg w response w1 :
  ACTION cfg ≠ "unsubscribe" →
  FEED_URL cfg ≠ "" →
  fetch (FEED_URL cfg) w = (Normal response, w1) →
  ok response = true →
  let podcastId := podcastId_of cfg in
  let w' := (main cfg w).2 in
  (main cfg w).1 = 0 ∧
  subscriptions_json w' =
    Some (<[podcastId := subscription_written cfg response (registry w) w1]>
            (registry w)) ∧
  stored_list w' podcastId =
    Some (episodesList podcastId (parseRSS (text response)).2) ∧
  (∀ k, k ≠ podcastId → episode_lists w' !! k = episode_lists w !! k) ∧
  (∃ title timestamp,
     requests w' =
       <[REQUEST_ID cfg :=
           {| res_success := Some true;
              res_requestId := Some (REQUEST_ID cfg);
              res_timestamp := Some timestamp;
              res_error := None;
              res_details :=
                SubscribeDetails "subscribe" podcastId title
                  (length (parseRSS (text response)).2) |}]> (requests w)) ∧
  written w' =
    written w ++ [subscriptions_path; feed_path podcastId; list_path podcastId;
                  request_path (REQUEST_ID cfg)].
Proof.
  intros Haction Hurl Hfetch Hok podcastId w'.
  destruct (files_inv _ _ (fetch_files _ _ _ _ Hfetch))
    as (Hsubs & Hfeeds & Hlists & Hreqs & Hwr).
  assert (registry w1 = registry w) as Hreg by (unfold registry; by rewrite Hsubs).
  unfold w', main, try_catch, bind.
  rewrite bool_decide_eq_false_2 by done.
  unfold subscribe, truthy. rewrite bool_decide_eq_true_2 by done.
  cbn [negb]. unfold bind. rewrite Hfetch, Hok. cbn [negb].
  unfold subscription_written.
  destruct (parseRSS (text response)) as [channel episodes].
  unfold read_subscriptions, subscribedAt_or_now. rewrite Hreg.
  fold podcastId.
  destruct (registry w !! podcastId) as [s|] eqn:Hs;
    [destruct (truthy (sub_subscribedAt s)) eqn:Ht|]; simpl.
  all: rewrite ?Hs, ?Ht, ?Hlists, ?Hreqs, ?Hwr, <- ?app_assoc; simpl.
  all: split_and!; try done.
  all: try (unfold stored_list; simpl; by rewrite lookup_insert_eq).
  all: try (intros k Hk; simpl; by rewrite lookup_insert_ne).
  all: try (eexists _, _; reflexivity).
Qed.

End SubscribeFacts.

Section StringFacts.
Import Js.

Lemma length_substring_prefix n s :
  n ≤ String.length s → String.length (String.substring 0 n s) = n.
Proof.
  revert s. induction n as [|n IH]; intros [|c s]; simpl; try lia; try done.
  intros H. rewrite IH by lia. done.
Qed.

Lemma hexadecimal_substring_prefix n s :
  hexadecimal s = true → hexadecimal (String.substring 0 n s) = true.
Proof.
  revert s. induction n as [|n IH]; intros [|c s]; simpl; try done.
  intros [Hc Hs]%andb_true_iff. rewrite Hc. simpl. by apply IH.
Qed.

Lemma pretty_N_char_no_dash x : pretty_N_char x ≠ "-"%char.
Proof. unfold pretty_N_char. by repeat case_match. Qed.

Lemma pretty_N_go_dashless x : ∀ s, dashless s → dashless (pretty_N_go x s).
Proof.
  induction (N.lt_wf_0 x) as [x _ IH]; intros s Hs.
  assert (x = 0 ∨ 0 < x)%N as [->|?] by lia.
  - by rewrite pretty_N_go_0.
  - rewrite pretty_N_go_step by done. apply IH.
    { by apply N.div_lt. }
    simpl. split; [apply pretty_N_char_no_dash | done].
Qed.

Lemma pretty_N_dashless (x : N) : dashless (pretty x).
Proof.
  unfold pretty, pretty_N. case_decide; [done|].
  by apply pretty_N_go_dashless.
Qed.

Lemma append_nil t : "" +:+ t = t.
Proof. reflexivity. Qed.

Lemma append_cons c s t : String c s +:+ t = String c (s +:+ t).
Proof. reflexivity. Qed.

(** Two strings cut at their first [-] are equal only if both parts are. *)
Lemma dashless_split s1 : ∀ s2 t1 t2,
  dashless s1 → dashless s2 →
  s1 +:+ "-" +:+ t1 = s2 +:+ "-" +:+ t2 → s1 = s2 ∧ t1 = t2.
Proof.
  induction s1 as [|c s1 IH]; intros [|c2 s2] t1 t2 H1 H2 H;
    rewrite ?append_cons, ?append_nil in H.
  - by injection H as ->.
  - injection H as Hc _. destruct H2 as [H2 _]. congruence.
  - injection H as Hc _. destruct H1 as [H1 _]. congruence.
  - injection H as -> Hrest. destruct H1 as [_ H1], H2 as [_ H2].
    destruct (IH s2 t1 t2 H1 H2 Hrest) as [-> ->]. done.
Qed.

(** The placeholders of [update-feeds.js] at two indices are equal only if
    the indices are. *)
Lemma new_placeholder_inj (now now' : N) (i i' : nat) :
  "new-" +:+ pretty now +:+ "-" +:+ pretty i =
  "new-" +:+ pretty now' +:+ "-" +:+ pretty i' → i = i'.
Proof.
  intros H. apply (inj (String.app "new-")) in H.
  apply dashless_split in H as [_ H]; try apply pretty_N_dashless.
  by apply (inj pretty) in H.
Qed.

(** So are those of [subscribe.js]. *)
Lemma ep_placeholder_inj (i i' : nat) :
  "ep-" +:+ pretty i = "ep-" +:+ pretty i' → i = i'.
Proof.
  intros H. apply (inj (String.app "ep-")) in H. by apply (inj pretty) in H.
Qed.

End StringFacts.

Section SubscribeTheorems.
Import Js Subscribe.
Context {rt : Runtime}.

Lemma episodesList_lookup podcastId episodes j e :
  episodesList podcastId episodes !! j = Some e →
  ∃ ep, episodes !! j = Some ep ∧
        e = {| ep_item := ep;
               ep_id := Some (or_else (it_guid ep) ("ep-" +:+ pretty j));
               ep_podcastId := Some podcastId;
               ep_isNew := None |}.
Proof.
  unfold episodesList. rewrite list_lookup_imap.
  destruct (episodes !! j) as [ep|]; simpl; [|done].
  intros [= <-]. by exists ep.
Qed.

(** C9. Whatever the podcast, the feed URL and the state of the checkout, the
    run of the script with [ACTION = unsubscribe] removes the subscription of
    that podcast from the registry, keeps every other subscription, and
    leaves every feed file and every episode list as it was. *)
Theorem unsubscribe_keeps_ledger (podcastId feedUrl title requestId : string)
    (w : World) :
  let cfg := {| ACTION := "unsubscribe"; FEED_URL := feedUrl;
                PODCAST_ID := podcastId; PODCAST_TITLE := title;
                REQUEST_ID := requestId |} in
  let w' := (main cfg w).2 in
  let removed := podcastId_of cfg in
  (podcastId ≠ "" → removed = podcastId) ∧
  registry w' = delete removed (registry w) ∧
  registry w' !! removed = None ∧
  (∀ k, k ≠ removed → registry w' !! k = registry w !! k) ∧
  feeds w' = feeds w ∧
  episode_lists w' = episode_lists w.
Proof.
  intros cfg w' removed.
  assert (registry w' = delete removed (registry w)) as Hreg by reflexivity.
  rewrite Hreg. split.
  { intros Hid. unfold removed, podcastId_of, truthy. simpl.
    by rewrite bool_decide_eq_true_2. }
  split; [done|]. split; [apply lookup_delete_eq|].
  split; [intros k Hk; by apply lookup_delete_ne|].
  split; reflexivity.
Qed.

(** C6. Two runs of the script for the same feed URL, without an explicit
    podcast id, both on a feed that was fetched: both derive the podcast id
    that is the first 12 characters of the MD5 digest of the URL, the second
    run rewrites the subscription that the first run stored and adds no
    other, [subscribedAt] keeps the value of the first run, and every other
    field is what the second run alone determines. *)
Theorem subscribe_twice_same_record `{!RuntimeLaws rt} (cfg cfg' : Config)
    (w wa wb : World) (response response' : Response) :
  ACTION cfg ≠ "unsubscribe" → ACTION cfg' ≠ "unsubscribe" →
  PODCAST_ID cfg = "" → PODCAST_ID cfg' = "" →
  FEED_URL cfg ≠ "" → FEED_URL cfg' = FEED_URL cfg →
  fetch (FEED_URL cfg) w = (Normal response, wa) → ok response = true →
  let w1 := (main cfg w).2 in
  fetch (FEED_URL cfg') w1 = (Normal response', wb) → ok response' = true →
  let w2 := (main cfg' w1).2 in
  let podcastId := String.substring 0 12 (md5_hex (FEED_URL cfg)) in
  podcastId_of cfg = podcastId ∧ podcastId_of cfg' = podcastId ∧
  String.length podcastId = 12 ∧ hexadecimal podcastId = true ∧
  ∃ first second,
    registry w1 !! podcastId = Some first ∧
    registry w2 !! podcastId = Some second ∧
    dom (registry w2) = dom (registry w1) ∧
    (∀ k, k ≠ podcastId → registry w2 !! k = registry w1 !! k) ∧
    sub_subscribedAt second = sub_subscribedAt first ∧
    let alone := subscription_written cfg' response' ∅ wb in
    sub_id second = podcastId ∧
    sub_title second = sub_title alone ∧
    sub_author second = sub_author alone ∧
    sub_feedUrl second = sub_feedUrl alone ∧
    sub_imageUrl second = sub_imageUrl alone ∧
    sub_description second = sub_description alone ∧
    sub_episodeCount second = sub_episodeCount alone ∧
    sub_lastUpdated second = sub_lastUpdated alone.
Proof.
  intros Ha Ha' Hid Hid' Hurl Hurl' Hfetch Hok w1 Hfetch' Hok' w2 podcastId.
  assert (podcastId_of cfg = podcastId) as Hp.
  { unfold podcastId_of, truthy. rewrite Hid. done. }
  assert (podcastId_of cfg' = podcastId) as Hp'.
  { unfold podcastId_of, truthy. rewrite Hid', Hurl'. done. }
  destruct (main_subscribed cfg w response wa Ha Hurl Hfetch Hok)
    as (_ & Hsubs & _).
  assert (FEED_URL cfg' ≠ "") as Hne by congruence.
  destruct (main_subscribed cfg' w1 response' wb Ha' Hne Hfetch' Hok')
    as (_ & Hsubs' & _).
  fold w1 in Hsubs. fold w2 in Hsubs'. rewrite Hp in Hsubs. rewrite Hp' in Hsubs'.
  assert (registry w1 =
          <[podcastId := subscription_written cfg response (registry w) wa]>
            (registry w)) as Hreg by (unfold registry at 1; by rewrite Hsubs).
  assert (registry w2 =
          <[podcastId := subscription_written cfg' response' (registry w1) wb]>
            (registry w1)) as Hreg' by (unfold registry at 1; by rewrite Hsubs').
  split; [done|]. split; [done|]. split.
  { apply length_substring_prefix. rewrite md5_hex_length. lia. }
  split; [apply hexadecimal_substring_prefix, md5_hex_hexadecimal|].
  eexists _, _. split; [rewrite Hreg; apply lookup_insert_eq|].
  split; [rewrite Hreg'; apply lookup_insert_eq|].
  split.
  { rewrite Hreg', dom_insert_L.
    apply subseteq_union_1_L, singleton_subseteq_l, elem_of_dom.
    rewrite Hreg, lookup_insert_eq. by eexists. }
  split; [intros k Hk; rewrite Hreg'; by apply lookup_insert_ne|].
  split.
  - unfold subscription_written at 1. simpl. rewrite Hp', Hreg, lookup_insert_eq.
    assert (sub_subscribedAt (subscription_written cfg response (registry w) wa)
            ≠ "") as Hat.
    { unfold subscription_written. simpl.
      destruct (registry w !! podcastId_of cfg) as [s|];
        [destruct (truthy (sub_subscribedAt s)) eqn:Ht|];
        try apply toISOString_truthy.
      unfold truthy in Ht. by apply bool_decide_eq_true_1 in Ht. }
    unfold truthy. by rewrite bool_decide_eq_true_2.
  - simpl. split_and!; done.
Qed.

End SubscribeTheorems.

Section MarkTheorems.
Import Js.
Context {rt : Runtime}.

(** C7, amended. A refresh by [updateFeed] that finds new items stores them
    first, each with [isNew = true], the podcast's id, and as [id] its guid
    or else the placeholder [new-<clock>-<index>]; the placeholders of two
    different new items differ; the episodes that were on record follow, each
    with [isNew = false]. The first sync by the subscribe script stores every
    fetched item with the podcast's id and as [id] its guid or else the
    placeholder [ep-<index>], different for different items, and gives no
    entry an [isNew] mark. *)
Theorem sync_marks_episodes (subscription : Subscription)
    (cfg : Subscribe.Config) (w wa v vb : World) (response response' : Response) :
  fetch (sub_feedUrl subscription) w = (Normal response, wa) →
  ok response = true →
  UpdateFeeds.newEpisodes_of
    (UpdateFeeds.existingGuids_of
       (UpdateFeeds.stored_episodes w (sub_id subscription)))
    (UpdateFeeds.parseRSS (text response)).2 ≠ [] →
  Subscribe.ACTION cfg ≠ "unsubscribe" →
  Subscribe.FEED_URL cfg ≠ "" →
  fetch (Subscribe.FEED_URL cfg) v = (Normal response', vb) →
  ok response' = true →
  let existingEpisodes := UpdateFeeds.stored_episodes w (sub_id subscription) in
  let newEpisodes :=
    UpdateFeeds.newEpisodes_of (UpdateFeeds.existingGuids_of existingEpisodes)
      (UpdateFeeds.parseRSS (text response)).2 in
  let podcastId := Subscribe.podcastId_of cfg in
  let fetched := (Subscribe.parseRSS (text response')).2 in
  (∃ marked,
     UpdateFeeds.stored_episodes (UpdateFeeds.updateFeed subscription w).2
       (sub_id subscription) =
       marked ++ map UpdateFeeds.mark_known existingEpisodes ∧
     map ep_item marked = newEpisodes ∧
     (∀ j e, marked !! j = Some e →
        ep_isNew e = Some true ∧
        ep_podcastId e = Some (sub_id subscription) ∧
        UpdateFeeds.id_assigned j e) ∧
     (∀ j j' e e', marked !! j = Some e → marked !! j' = Some e' → j ≠ j' →
        truthy_opt (it_guid (ep_item e)) = false →
        truthy_opt (it_guid (ep_item e')) = false → ep_id e ≠ ep_id e') ∧
     (∀ e, e ∈ map UpdateFeeds.mark_known existingEpisodes →
        ep_isNew e = Some false)) ∧
  (∃ stored,
     stored_list (Subscribe.main cfg v).2 podcastId = Some stored ∧
     length stored = length fetched ∧
     (∀ j e, stored !! j = Some e →
        ∃ ep, fetched !! j = Some ep ∧ ep_item e = ep ∧
              ep_id e = Some (or_else (it_guid ep) ("ep-" +:+ pretty j)) ∧
              ep_podcastId e = Some podcastId ∧
              ep_isNew e = None) ∧
     (∀ j j' : nat, j ≠ j' → "ep-" +:+ pretty j ≠ "ep-" +:+ pretty j')).
Proof.
  intros Hfetch Hok Hnew Haction Hurl Hfetch' Hok'
    existingEpisodes newEpisodes podcastId fetched.
  split.
  - destruct (updateFeed_fetched subscription w response wa Hfetch Hok)
      as (marked & w' & Hrun & Hitems & Hmarks & Hstored & _).
    fold existingEpisodes newEpisodes in Hitems, Hstored, Hnew.
    exists marked. rewrite Hrun. simpl. split.
    { rewrite Hstored. by destruct newEpisodes. }
    split; [done|]. split; [done|]. split.
    + intros j j' e e' He He' Hj Hguid Hguid' Heq.
      destruct (Hmarks j e He) as (_ & _ & Hid).
      destruct (Hmarks j' e' He') as (_ & _ & Hid').
      unfold UpdateFeeds.id_assigned in Hid, Hid'.
      rewrite Hguid in Hid. rewrite Hguid' in Hid'.
      destruct Hid as [now Hid], Hid' as [now' Hid'].
      rewrite Hid, Hid' in Heq. apply (inj Some) in Heq.
      by apply new_placeholder_inj in Heq.
    + intros e He. apply list_elem_of_fmap in He as (e0 & -> & _). done.
  - destruct (main_subscribed cfg v response' vb Haction Hurl Hfetch' Hok')
      as (_ & _ & Hlist & _).
    fold podcastId fetched in Hlist. eexists. split; [exact Hlist|].
    split; [unfold Subscribe.episodesList; by rewrite length_imap|].
    split.
    + intros j e He. apply episodesList_lookup in He as (ep & Hep & ->).
      by exists ep.
    + intros j j' Hj Heq. by apply ep_placeholder_inj in Heq.
Qed.

End MarkTheorems.

Section BatchFacts.
Import Js UpdateFeeds.
Context {rt : Runtime}.



End BatchFacts.

Section BatchTheorem.
Import Js UpdateFeeds.
Context {rt : Runtime}.



End BatchTheorem.

Section ResultFacts.
Import Js.
Context {rt : Runtime}.

Local Arguments Subscribe.parseRSS : simpl never.
Local Arguments Subscribe.episodesList : simpl never.

(** Unfolds the journal of a computed world down to its request ids. *)
Ltac journal :=
  unfold request_writes in *; simpl; rewrite ?omap_app; simpl;
  rewrite ?app_nil_r.





Section SearchScript.
Context {lib : Search.Library}.

Lemma search_fetch_files url w : files (Search.fetch url w).2 = files w.
Proof. unfold Search.fetch. by destruct (protocol_get (clock w) url). Qed.

Lemma searchPodcasts_quiet query limit w :
  files (Search.searchPodcasts query limit w).2 = files w.
Proof.
  unfold Search.searchPodcasts, bind.
  pose proof (search_fetch_files
    ("https://itunes.apple.com/search?" +:+
     Search.URLSearchParams_toString query (pretty limit)) w) as Hf.
  destruct (Search.fetch _ w) as [[response|e] w1]; simpl in *; [|done].
  destruct (ok response); simpl; [|done].
  by destruct (Search.JSON_parse_results (text response)).
Qed.

(** The lookup files are written without a failure, and no result record
    with them. *)
Lemma save_lookups_spec results : ∀ w,
  ∃ w', Search.save_lookups results w = (Normal (), w') ∧
        requests w' = requests w ∧
        request_writes (written w') = request_writes (written w).
Proof.
  induction results as [|result rest IH]; intros w; simpl.
  - by exists w.
  - unfold bind. case_bool_decide; simpl.
    + destruct (lookups w !! sr_itunesId result); simpl.
      * apply IH.
      * destruct (IH (write_lookup (sr_itunesId result) result w).2)
          as (w' & Hrun & Hreq & Hwr).
        simpl in *. eexists. split; [exact Hrun|]. split; [done|].
        rewrite Hwr. by journal.
    + apply IH.
Qed.


End SearchScript.

Section DownloadScript.
Context {lib : Download.Library}.


End DownloadScript.


End ResultFacts.

(** ** The scenario: the theorems at work on a concrete runtime and checkout *)

Section ScenarioFacts.
Import Js Scenario.

Lemma runtime_laws items : RuntimeLaws (runtime items).
Proof.
  split.
  - intros t. simpl. by rewrite append_cons.
  - intros s. simpl. by case_decide.
  - intros s. simpl. by case_decide.
  - intros m. apply NoDup_fst_map_to_list.
  - intros m k. simpl. rewrite list_elem_of_fmap. split.
    + intros ([k' s] & -> & Hin). apply elem_of_map_to_list in Hin. by eexists.
    + intros [s Hs]. exists (k, s). split; [done|]. by apply elem_of_map_to_list.
Qed.

Lemma updateFeed_merges_new_first_witness :
  map (λ e, (ep_id e, ep_isNew e))
    (UpdateFeeds.stored_episodes
       (UpdateFeeds.updateFeed (rt := runtime feed3) subscription
          subscribed_world).2 podcastId)
  = [(Some "g1", Some true); (Some "new-1700000000001-1", Some true);
     (Some "g2", Some false)] ∧
  length
    (UpdateFeeds.stored_episodes
       (UpdateFeeds.updateFeed (rt := runtime feed3) subscription
          subscribed_world).2 podcastId) = 1 + 2.
Proof.
  split; [vm_compute; reflexivity|].
  exact (proj1 (proj2 (proj2 (proj2 (proj2
    (updateFeed_merges_new_first (rt := runtime feed3) subscription
       subscribed_world response (tick subscribed_world) eq_refl eq_refl)))))).
Defined.


Lemma updateFeed_unchanged_feed_witness :
  episode_lists
    (UpdateFeeds.updateFeed (rt := runtime [item (Some "g2") "u2"])
       subscription subscribed_world).2
  = episode_lists subscribed_world.
Proof.
  destruct (updateFeed_unchanged_feed (rt := runtime [item (Some "g2") "u2"])
              subscription subscribed_world response (tick subscribed_world)
              eq_refl eq_refl) as (result & _ & _ & _ & Hlists & _).
  - intros ep Hin. vm_compute in Hin.
    apply list_elem_of_singleton in Hin as ->. vm_compute. left.
  - exact Hlists.
Defined.

Lemma subscribe_twice_same_record_witness :
  let w1 := (Subscribe.main (rt := runtime feed3) (config "subscribe" "")
               empty_world).2 in
  let w2 := (Subscribe.main (rt := runtime feed3) (config "subscribe" "") w1).2 in
  String.length (Subscribe.podcastId_of (rt := runtime feed3)
                   (config "subscribe" "")) = 12 ∧
  dom (registry w2) = dom (registry w1).
Proof.
  intros w1 w2.
  destruct (subscribe_twice_same_record (rt := runtime feed3)
              (RuntimeLaws0 := runtime_laws feed3)
              (config "subscribe" "") (config "subscribe" "")
              empty_world (tick empty_world) (tick w1) response response)
    as (Hid & _ & Hlen & _ & first & second & _ & _ & Hdom & _);
    try discriminate; try reflexivity.
  split; [rewrite Hid; exact Hlen | exact Hdom].
Defined.

Lemma sync_marks_episodes_witness :
  ∃ stored,
    stored_list (Subscribe.main (rt := runtime feed3) (config "subscribe" "")
                   empty_world).2
      (Subscribe.podcastId_of (rt := runtime feed3) (config "subscribe" ""))
    = Some stored ∧
    length stored = 3.
Proof.
  destruct (sync_marks_episodes (rt := runtime feed3) subscription
              (config "subscribe" "") subscribed_world (tick subscribed_world)
              empty_world (tick empty_world) response response)
    as (_ & stored & Hlist & Hlen & _);
    try discriminate; try reflexivity.
  exists stored. split; [exact Hlist | exact Hlen].
Defined.

Lemma updateFeed_keeps_duplicates_witness :
  ∃ result,
    (UpdateFeeds.updateFeed (rt := runtime feed_twice) subscription
       subscribed_world).1 = Normal result ∧
    newEpisodes result = Some 2.
Proof.
  exact (proj1 (updateFeed_keeps_duplicates (rt := runtime feed_twice)
                  subscription subscribed_world response
                  (tick subscribed_world) eq_refl eq_refl)).
Defined.




(** C7, counterexample. The first sync of a feed of three items stores three
    entries, none of which has an [isNew] mark. *)
Lemma first_sync_sets_no_isNew :
  map ep_isNew <$>
    stored_list (Subscribe.main (rt := runtime feed3) (config "subscribe" "")
                   empty_world).2 podcastId
  = Some [None; None; None].
Proof. vm_compute. reflexivity. Qed.

(** C8, counterexample. The feed lists the guid [g1] twice and [g1] is not on
    record: the refresh counts two new episodes and stores both items, the
    first before the second. *)
Lemma duplicate_guid_counted_twice :
  let run := UpdateFeeds.updateFeed (rt := runtime feed_twice) subscription
               subscribed_world in
  run.1 = Normal {| updated := true; upd_error := None;
                    newEpisodes := Some 2; totalEpisodes := Some 2 |} ∧
  map (λ e, (UpdateFeeds.identity (ep_item e), it_url (ep_item e)))
    (UpdateFeeds.stored_episodes run.2 podcastId)
  = [("g1", "u1"); ("g1", "u1-again"); ("g2", "u2")].
Proof. vm_compute. split; reflexivity. Qed.

End ScenarioFacts.

(** * Further properties of the code *)

(** ** The client *)

Section ClientFacts.
Import Poller Client.

Lemma reads_app tr tr' : reads (tr ++ tr') = reads tr + reads tr'.
Proof. unfold reads. by rewrite List.filter_app, length_app. Qed.

Lemma waited_app tr tr' : waited (tr ++ tr') = (waited tr + waited tr')%Z.
Proof.
  unfold waited. rewrite omap_app, foldr_app.
  generalize (omap (λ e, match e with PostDelayed d => Some d | _ => None end) tr).
  intros l. induction l as [|d l IH]; simpl; lia.
Qed.

Lemma reads_retries attempt k : reads (retries attempt k) = k.
Proof.
  revert attempt. induction k as [|k IH]; intros attempt; [done|].
  unfold retries in *. simpl. rewrite reads_retry. by rewrite IH.
Qed.

Lemma waited_retries attempt k :
  waited (retries attempt k) = (2000 * Z.of_nat k)%Z.
Proof.
  revert attempt. induction k as [|k IH]; intros attempt; [done|].
  unfold retries in *. simpl. rewrite waited_retry, IH. lia.
Qed.

(** The poller started at [attempt], when the first read that is neither a
    failure nor a 404 is the one of attempt [attempt + d] and finds the
    record. *)
Lemma poll_delivers_from store d : ∀ attempt code body,
  attempt + d ≤ 60 →
  (∀ n, attempt ≤ n < attempt + d →
        transport_failure (store n) ∨ not_found (store n)) →
  store (attempt + d) = HttpResponse code body →
  isSuccessful code = true →
  pollForResults store attempt =
    (onSuccess body, retries attempt d ++ [Enqueue (attempt + d)]).
Proof.
  induction d as [|d IH]; intros attempt code body Hle Habs Hk Hc.
  - rewrite Nat.add_0_r in *. by apply (poll_present store attempt code body).
  - assert (pollForResults store attempt =
      ((pollForResults store (attempt + 1)).1,
       Enqueue attempt :: PostDelayed 2000 ::
         (pollForResults store (attempt + 1)).2)) as ->.
    { destruct (store attempt) as [e|c b] eqn:Hs.
      - apply (poll_failure _ _ e); [lia | done].
      - destruct (Habs attempt ltac:(lia)) as [Hf|Hn]; rewrite Hs in *; [done|].
        simpl in Hn. subst c. apply (poll_not_found _ _ b); [lia | done]. }
    rewrite (IH (attempt + 1) code body); try done; try lia.
    + simpl. unfold retries. simpl.
      by replace (attempt + 1 + d) with (attempt + S d) by lia;
         replace (attempt + 1) with (S attempt) by lia.
    + intros n Hn. apply Habs. lia.
    + by replace (attempt + 1 + d) with (attempt + S d) by lia.
Qed.

(** X1. When the record shows up at the read of attempt [k] (at most 60) and
    every earlier read failed or said 404, the poller delivers the body of
    that response after exactly [k + 1] reads and [k] waits of two seconds,
    and reads nothing after it. *)
Theorem poll_delivers_record (store : nat → ReadOutcome) (k code : nat)
    (body : string) :
  k ≤ 60 →
  (∀ n, n < k → transport_failure (store n) ∨ not_found (store n)) →
  store k = HttpResponse code body →
  isSuccessful code = true →
  pollForResults store 0 = (onSuccess body, retries 0 k ++ [Enqueue k]) ∧
  reads (pollForResults store 0).2 = k + 1 ∧
  waited (pollForResults store 0).2 = (2000 * Z.of_nat k)%Z.
Proof.
  intros Hk Habs Hs Hc.
  assert (pollForResults store 0 =
          (onSuccess body, retries 0 k ++ [Enqueue k])) as ->.
  { apply (poll_delivers_from store k 0 code body); try done.
    intros n Hn. apply Habs. lia. }
  split; [done|]. cbn [snd]. split.
  - rewrite reads_app, reads_retries. reflexivity.
  - rewrite waited_app, waited_retries. unfold waited. simpl. lia.
Qed.

Lemma poll_delivers_record_witness :
  pollForResults
    (λ n, match n with
          | 0 => Failure "timeout"
          | 1 => HttpResponse 404 ""
          | _ => HttpResponse 200 "{}"
          end) 0
  = (onSuccess "{}",
     [Enqueue 0; PostDelayed 2000; Enqueue 1; PostDelayed 2000; Enqueue 2]).
Proof.
  refine (proj1 (poll_delivers_record _ 2 200 "{}" _ _ eq_refl eq_refl)).
  - apply Nat.leb_le. reflexivity.
  - intros [|[|n]] Hn; [by left | by right | lia].
Defined.

Lemma poll_bounded_from store k : ∀ attempt,
  attempt + k = 61 →
  reads (pollForResults store attempt).2 ≤ k ∧
  (0 ≤ waited (pollForResults store attempt).2 ≤ 2000 * Z.of_nat k)%Z ∧
  (waited (pollForResults store attempt).2 ≤
     2000 * Z.of_nat (reads (pollForResults store attempt).2))%Z.
Proof.
  induction k as [|k IH]; intros attempt Hk.
  - rewrite poll_exhausted by lia. done.
  - specialize (IH (attempt + 1) ltac:(lia)).
    destruct (store attempt) as [e|code body] eqn:Hs.
    + rewrite (poll_failure store attempt e) by (done || lia).
      simpl. rewrite reads_retry, waited_retry. lia.
    + destruct (isSuccessful code) eqn:Hc.
      { rewrite (poll_present store attempt code body) by (done || lia).
        unfold reads, waited. simpl. lia. }
      destruct (decide (code = 404)) as [->|Hne].
      { rewrite (poll_not_found store attempt body) by (done || lia).
        simpl. rewrite reads_retry, waited_retry. lia. }
      rewrite (poll_http_error store attempt code body) by (done || lia).
      unfold reads, waited. simpl. lia.
Qed.

Lemma poll_is_bounded_reads store : reads (pollForResults store 0).2 ≤ 61.
Proof. by destruct (poll_bounded_from store 61 0 eq_refl) as (Hr & _). Qed.

(** X2. Whatever the Result Store answers, a poll reads it at most 61 times
    and waits at most 122 seconds in all, two seconds at most per read. *)
Theorem poll_is_bounded (store : nat → ReadOutcome) :
  reads (pollForResults store 0).2 ≤ 61 ∧
  (0 ≤ waited (pollForResults store 0).2 ≤ 122000)%Z ∧
  (waited (pollForResults store 0).2 ≤
     2000 * Z.of_nat (reads (pollForResults store 0).2))%Z.
Proof.
  destruct (poll_bounded_from store 61 0 eq_refl) as (Hr & Hw & Hrw).
  split; [done|]. split; [lia | done].
Qed.

(** Every poll from attempt 0 reads the store at least once. *)
Lemma poll_reads_once store : 1 ≤ reads (pollForResults store 0).2.
Proof.
  destruct (store 0) as [e|code body] eqn:Hs.
  - rewrite (poll_failure store 0 e) by (done || lia). simpl.
    rewrite reads_retry. lia.
  - destruct (isSuccessful code) eqn:Hc.
    { by rewrite (poll_present store 0 code body) by (done || lia). }
    destruct (decide (code = 404)) as [->|Hne].
    { rewrite (poll_not_found store 0 body) by (done || lia). simpl.
      rewrite reads_retry. lia. }
    by rewrite (poll_http_error store 0 code body) by (done || lia).
Qed.

Lemma polled_Polling tr : polled (map Polling tr) = tr.
Proof. induction tr as [|e tr IH]; [done|]. unfold polled in *. simpl. by f_equal. Qed.

Lemma dispatched_Polling tr : dispatched (map Polling tr) = 0.
Proof. induction tr as [|e tr IH]; [done|]. unfold dispatched in *. by simpl. Qed.

(** X3. [triggerAction] posts the event at most once, and not at all without
    a token. It reads the Result Store exactly when a token is set and the
    post was answered with 204 or 200; it then hands on what the poller
    delivers from attempt 0, so after at most 61 reads. *)
Theorem triggerAction_polls_after_accept
    (dispatches : string → string → ReadOutcome) (store : nat → ReadOutcome)
    (githubToken : option string) (eventType requestId : string) :
  let run := triggerAction dispatches store githubToken eventType requestId in
  let accepted :=
    (∃ token, githubToken = Some token ∧ token ≠ "") ∧
    ∃ code body, dispatches eventType requestId = HttpResponse code body ∧
                 (code = 204 ∨ code = 200) in
  dispatched run.2 ≤ 1 ∧
  (githubToken = None ∨ githubToken = Some "" →
     run = (onError "GitHub token not configured", [])) ∧
  (polled run.2 ≠ [] ↔ accepted) ∧
  (accepted →
     run.1 = (pollForResults store 0).1 ∧
     polled run.2 = (pollForResults store 0).2 ∧ dispatched run.2 = 1) ∧
  reads (polled run.2) ≤ 61.
Proof.
  intros run accepted.
  assert (accepted ∨ ¬ accepted) as [Hacc|Hrej].
  { unfold accepted. destruct githubToken as [token|].
    2: { right. by intros [(token & [=] & _) _]. }
    destruct (decide (token = "")) as [->|Htok].
    { right. by intros [(token & [= <-] & Hne) _]. }
    destruct (dispatches eventType requestId) as [e|code body].
    { right. by intros (_ & c & b & [=] & _). }
    destruct (decide (code = 204 ∨ code = 200)) as [Hc|Hc].
    - left. split; [by exists token | by exists code, body].
    - right. by intros (_ & c & b & [= <- <-] & Hc'). }
  - assert (run = ((pollForResults store 0).1,
                   Dispatch eventType requestId ::
                     map Polling (pollForResults store 0).2)) as Hrun.
    { destruct Hacc as ((token & -> & Htok) & code & body & Hd & Hcode).
      unfold run, triggerAction. rewrite bool_decide_eq_false_2, Hd by done.
      by destruct Hcode as [-> | ->]. }
    assert (polled run.2 = (pollForResults store 0).2) as Hpolled.
    { rewrite Hrun. apply polled_Polling. }
    assert (dispatched run.2 = 1) as Hdisp.
    { rewrite Hrun. cbn [snd].
      change (dispatched (Dispatch eventType requestId ::
                map Polling (pollForResults store 0).2))
        with (S (dispatched (map Polling (pollForResults store 0).2))).
      by rewrite dispatched_Polling. }
    rewrite Hpolled, Hdisp. split; [done|]. split.
    { destruct Hacc as ((token & -> & Htok) & _).
      intros [H|H]; [done|]. injection H as H. done. }
    split.
    { split; [done|]. intros _ Hnil.
      pose proof (poll_reads_once store) as Honce. rewrite Hnil in Honce.
      unfold reads in Honce. simpl in Honce. lia. }
    split; [by rewrite Hrun | apply poll_is_bounded_reads].
  - assert (run.2 = [] ∨ run.2 = [Dispatch eventType requestId]) as Hrun.
    { unfold run, triggerAction, accepted in *.
      destruct githubToken as [token|]; [|by left].
      case_bool_decide as Htok; [by left|].
      destruct (dispatches eventType requestId) as [e|code body]; [by right|].
      destruct (bool_decide (code = 204) || bool_decide (code = 200)) eqn:Hcode;
        [|by right].
      destruct Hrej. split; [by exists token|]. exists code, body.
      split; [done|].
      apply orb_true_iff in Hcode as [H|H]; apply bool_decide_eq_true_1 in H;
        auto. }
    split; [destruct Hrun as [-> | ->]; unfold dispatched; simpl; lia|].
    split.
    { unfold run, triggerAction. intros [-> | ->]; [done|].
      by rewrite bool_decide_eq_true_2. }
    split; [|split; [done|destruct Hrun as [-> | ->]; unfold reads; simpl; lia]].
    split; [|done]. by destruct Hrun as [-> | ->].
Qed.

End ClientFacts.

(** ** The fetch helper of the feed scripts *)

Section FetchFacts.
Import Js.
Context {rt : Runtime}.

Lemma redirect_Some statusCode location target :
  redirect statusCode location = Some target →
  300 ≤ statusCode < 400 ∧ location = Some target ∧ target ≠ "".
Proof.
  unfold redirect.
  destruct (300 <=? statusCode) eqn:H1; [|done].
  destruct (statusCode <? 400) eqn:H2; [|done].
  destruct location as [l|]; simpl; [|done].
  unfold truthy. case_bool_decide; [|done]. intros [= <-].
  apply Nat.leb_le in H1. apply Nat.ltb_lt in H2. done.
Qed.

Lemma request_clock_upper url redirectCount w :
  clock (request url redirectCount w).2 + redirectCount ≤ clock w + 11 ∨
  10 < redirectCount ∧ clock (request url redirectCount w).2 = clock w.
Proof.
  funelim (request url redirectCount w); simpl.
  - right. done.
  - left. lia.
  - left. match goal with IH : _ ∨ _ |- _ => simpl in IH; lia end.
  - left. lia.
Qed.

(** X4. One call of [fetch] issues at most 11 requests, whatever the network
    answers: the first one and at most ten redirects. *)
Theorem fetch_at_most_11_requests (url : string) (w : World) :
  clock w ≤ clock (fetch url w).2 ≤ clock w + 11 ∧
  files (fetch url w).2 = files w.
Proof.
  unfold fetch. split; [split|].
  - apply request_clock.
  - destruct (request_clock_upper url 0 w) as [H|[H _]]; lia.
  - apply request_files.
Qed.

Lemma request_endless url redirectCount : ∀ w,
  (∀ n u, ∃ statusCode target contentType data,
     protocol_get n u = IncomingMessage statusCode (Some target) contentType data ∧
     300 ≤ statusCode < 400 ∧ target ≠ "") →
  redirectCount ≤ 11 →
  (request url redirectCount w).1 = Thrown "Too many redirects" ∧
  clock (request url redirectCount w).2 + redirectCount = clock w + 11.
Proof.
  intros w Hnet. funelim (request url redirectCount w); simpl; intros Hle.
  - split; [done | lia].
  - destruct (Hnet (clock w) currentUrl) as (s & t & c & d & Hget & _).
    exfalso. congruence.
  - match goal with IH : _ → _ → _ |- _ =>
      destruct (IH Hnet ltac:(lia)) as [-> Hc] end.
    simpl in Hc. split; [done | lia].
  - destruct (Hnet (clock w) currentUrl) as (s & t & c & d & Hget & Hs & Ht).
    assert (redirect s (Some t) = None) as Hred by congruence.
    unfold redirect, truthy_opt, truthy in Hred.
    rewrite (proj2 (Nat.leb_le 300 s)), (proj2 (Nat.ltb_lt s 400)),
      bool_decide_eq_true_2 in Hred by (done || lia).
    done.
Qed.

(** X5. On a network that answers every request with a redirect, [fetch]
    gives up with "Too many redirects" after exactly 11 requests. *)
Theorem fetch_gives_up_on_redirect_loop (url : string) (w : World) :
  (∀ n u, ∃ statusCode target contentType data,
     protocol_get n u = IncomingMessage statusCode (Some target) contentType data ∧
     300 ≤ statusCode < 400 ∧ target ≠ "") →
  (fetch url w).1 = Thrown "Too many redirects" ∧
  clock (fetch url w).2 = clock w + 11.
Proof.
  intros Hnet. unfold fetch.
  destruct (request_endless url 0 w Hnet) as [Hr Hc]; [lia|].
  split; [done | lia].
Qed.



End FetchFacts.

Lemma fetch_gives_up_on_redirect_loop_witness :
  (Js.fetch (rt := Redirecting.runtime) Scenario.feedUrl
     Scenario.empty_world).1 = Js.Thrown "Too many redirects" ∧
  Js.clock (Js.fetch (rt := Redirecting.runtime) Scenario.feedUrl
              Scenario.empty_world).2 = 11.
Proof.
  apply (fetch_gives_up_on_redirect_loop (rt := Redirecting.runtime)
           Scenario.feedUrl Scenario.empty_world).
  intros n u. exists 302, (u +:+ "/"), None, "". split; [reflexivity|].
  split; [split; apply Nat.leb_le; reflexivity|].
  destruct u; discriminate.
Defined.

(** ** The feed parsers *)

Section ParserFacts.
Import Js.
Context {rt : Runtime}.


Lemma update_items_keys xml :
  map UpdateFeeds.identity (UpdateFeeds.parseRSS xml).2 =
  map UpdateFeeds.identity (Subscribe.parseRSS xml).2.
Proof.
  unfold UpdateFeeds.parseRSS, Subscribe.parseRSS. simpl.
  by rewrite map_map.
Qed.


End ParserFacts.

(** ** The subscribe script *)

Section SubscribeMore.
Import Js Subscribe.
Context {rt : Runtime}.

Local Arguments parseRSS : simpl never.
Local Arguments episodesList : simpl never.




End SubscribeMore.

Section SubscribeCompose.
Import Js.
Context {rt : Runtime}.

Local Arguments Subscribe.parseRSS : simpl never.
Local Arguments UpdateFeeds.parseRSS : simpl never.
Local Arguments Subscribe.episodesList : simpl never.

Lemma identities_episodesList podcastId episodes :
  UpdateFeeds.identities (Subscribe.episodesList podcastId episodes) =
  map UpdateFeeds.identity episodes.
Proof.
  unfold UpdateFeeds.identities. apply list_eq. intros j.
  rewrite !list_lookup_fmap.
  destruct (Subscribe.episodesList podcastId episodes !! j) as [e|] eqn:He.
  - apply episodesList_lookup in He as (ep & -> & ->). done.
  - unfold Subscribe.episodesList in He. rewrite list_lookup_imap in He.
    by destruct (episodes !! j).
Qed.

Lemma stored_episodes_list w podcastId stored :
  stored_list w podcastId = Some stored →
  UpdateFeeds.stored_episodes w podcastId = stored.
Proof.
  unfold stored_list, UpdateFeeds.stored_episodes.
  destruct (episode_lists w !! podcastId); simpl; [by intros [= ->] | done].
Qed.

(** X9. A successful run of the subscribe script replaces the episode list of
    the podcast by the fetched episodes: the keys on record afterwards are
    those of the feed, in its order, so an episode that was on record and
    that the feed no longer lists is gone. *)
Theorem subscribe_replaces_list (cfg : Subscribe.Config) (w w1 : World)
    (response : Response) :
  Subscribe.ACTION cfg ≠ "unsubscribe" →
  Subscribe.FEED_URL cfg ≠ "" →
  fetch (Subscribe.FEED_URL cfg) w = (Normal response, w1) →
  ok response = true →
  let podcastId := Subscribe.podcastId_of cfg in
  let fetched := (Subscribe.parseRSS (text response)).2 in
  let after :=
    UpdateFeeds.stored_episodes (Subscribe.main cfg w).2 podcastId in
  map ep_item after = fetched ∧
  UpdateFeeds.identities after = map UpdateFeeds.identity fetched ∧
  ∀ key, key ∈ UpdateFeeds.identities (UpdateFeeds.stored_episodes w podcastId) →
         key ∉ map UpdateFeeds.identity fetched →
         key ∉ UpdateFeeds.identities after.
Proof.
  intros Haction Hurl Hfetch Hok podcastId fetched after.
  destruct (main_subscribed cfg w response w1 Haction Hurl Hfetch Hok)
    as (_ & _ & Hlist & _).
  fold podcastId fetched in Hlist.
  assert (after = Subscribe.episodesList podcastId fetched) as ->
    by by apply stored_episodes_list.
  rewrite identities_episodesList. split; [|split; [done|]].
  - apply list_eq. intros j. rewrite list_lookup_fmap.
    destruct (Subscribe.episodesList podcastId fetched !! j) as [e|] eqn:He.
    + apply episodesList_lookup in He as (ep & -> & ->). done.
    + unfold Subscribe.episodesList in He. rewrite list_lookup_imap in He.
      by destruct (fetched !! j).
  - by intros key _ Hnot.
Qed.



(** X11. After a successful subscription, a refresh of the stored
    subscription that fetches a feed with the same items finds nothing new:
    the keys that the subscribe script stored are the keys that the refresh
    computes, so the episode list is left as the subscription wrote it. *)
Theorem subscribe_then_refresh (cfg : Subscribe.Config) (w w1 w2 : World)
    (response response' : Response) (subscription : Subscription) :
  Subscribe.ACTION cfg ≠ "unsubscribe" →
  Subscribe.FEED_URL cfg ≠ "" →
  fetch (Subscribe.FEED_URL cfg) w = (Normal response, w1) →
  ok response = true →
  let podcastId := Subscribe.podcastId_of cfg in
  let subscribed := (Subscribe.main cfg w).2 in
  registry subscribed !! podcastId = Some subscription →
  fetch (sub_feedUrl subscription) subscribed = (Normal response', w2) →
  ok response' = true →
  match_items (text response') = match_items (text response) →
  sub_id subscription = podcastId ∧
  sub_feedUrl subscription = Subscribe.FEED_URL cfg ∧
  ∃ result,
    (UpdateFeeds.updateFeed subscription subscribed).1 = Normal result ∧
    newEpisodes result = Some 0 ∧
    totalEpisodes result =
      Some (length (Subscribe.parseRSS (text response)).2) ∧
    episode_lists (UpdateFeeds.updateFeed subscription subscribed).2 =
      episode_lists subscribed.
Proof.
  intros Haction Hurl Hfetch Hok podcastId subscribed Hsub Hfetch' Hok' Hsame.
  destruct (main_subscribed cfg w response w1 Haction Hurl Hfetch Hok)
    as (_ & Hsubs & Hlist & _ & _ & _).
  fold podcastId subscribed in Hsubs, Hlist.
  unfold registry in Hsub. rewrite Hsubs in Hsub. simpl in Hsub.
  rewrite lookup_insert_eq in Hsub. injection Hsub as <-.
  split; [done|]. split; [done|].
  set (subscription :=
         Subscribe.subscription_written cfg response (registry w) w1) in *.
  assert (sub_id subscription = podcastId) as Hid by done.
  destruct (updateFeed_fetched subscription subscribed response' w2 Hfetch' Hok')
    as (marked & w' & Hrun & _ & _ & _ & Hlists & _).
  rewrite Hid in Hrun, Hlists.
  rewrite (stored_episodes_list _ _ _ Hlist) in Hrun, Hlists.
  assert ((UpdateFeeds.parseRSS (text response')).2 =
          (UpdateFeeds.parseRSS (text response)).2) as Hparse.
  { unfold UpdateFeeds.parseRSS. simpl. by rewrite Hsame. }
  rewrite Hparse in Hrun, Hlists.
  assert (UpdateFeeds.newEpisodes_of
            (UpdateFeeds.existingGuids_of
               (Subscribe.episodesList podcastId
                  (Subscribe.parseRSS (text response)).2))
            (UpdateFeeds.parseRSS (text response)).2 = []) as Hnil.
  { apply newEpisodes_of_nil. intros ep Hin.
    rewrite identities_episodesList, <- update_items_keys.
    apply list_elem_of_fmap. by exists ep. }
  rewrite Hnil in Hrun, Hlists. rewrite Hrun. simpl.
  eexists. split; [reflexivity|]. simpl. split; [done|]. split.
  - f_equal. unfold UpdateFeeds.parseRSS, Subscribe.parseRSS. simpl.
    by rewrite length_map.
  - by apply Hlists.
Qed.

End SubscribeCompose.

(** ** The refresh of one feed *)

Section RefreshFacts.
Import Js UpdateFeeds.
Context {rt : Runtime}.

Local Arguments parseRSS : simpl never.
Local Arguments newEpisodes_of : simpl never.
Local Arguments existingGuids_of : simpl never.
Local Arguments mark_new : simpl never.

(** The two files that [updateFeed] writes for a feed that was fetched. *)
Lemma updateFeed_writes subscription w response w1 :
  fetch (sub_feedUrl subscription) w = (Normal response, w1) →
  ok response = true →
  let channel := (parseRSS (text response)).1 in
  let episodes := (parseRSS (text response)).2 in
  let existingEpisodes := stored_episodes w (sub_id subscription) in
  let newEpisodes :=
    newEpisodes_of (existingGuids_of existingEpisodes) episodes in
  ∃ marked listUpdated feedUpdated,
    map ep_item marked = newEpisodes ∧
    episode_lists (updateFeed subscription w).2 =
      match newEpisodes with
      | [] => episode_lists w
      | _ =>
          <[sub_id subscription :=
              {| list_podcastId := sub_id subscription;
                 list_count := length (marked ++ map mark_known existingEpisodes);
                 list_lastUpdated := Some listUpdated;
                 list_episodes := marked ++ map mark_known existingEpisodes |}]>
            (episode_lists w)
      end ∧
    feeds (updateFeed subscription w).2 =
      <[sub_id subscription :=
          {| feed_podcastId := sub_id subscription;
             feed_channel :=
               {| ch_title := Some (sub_title subscription);
                  ch_author := ch_author channel;
                  ch_imageUrl :=
                    or_opt (ch_imageUrl channel)
                      (Some (sub_imageUrl subscription));
                  ch_description := ch_description channel |};
             feed_episodeCount := length episodes;
             feed_lastUpdated := feedUpdated |}]> (feeds w).
Proof.
  intros Hfetch Hok. cbv zeta.
  destruct (files_inv _ _ (fetch_files _ _ _ _ Hfetch))
    as (Hsubs & Hfeeds & Hlists & Hreqs & Hwr).
  assert (stored_episodes w1 (sub_id subscription) =
          stored_episodes w (sub_id subscription)) as Hst.
  { unfold stored_episodes. by rewrite Hlists. }
  unfold updateFeed, try_catch, bind. rewrite Hfetch, Hok.
  destruct (parseRSS (text response)) as [channel episodes].
  cbn [negb fst snd]. unfold read_existingEpisodes. rewrite Hst.
  remember (stored_episodes w (sub_id subscription)) as existingEpisodes eqn:HL.
  destruct (newEpisodes_of (existingGuids_of existingEpisodes) episodes)
    as [|ep rest] eqn:Hnew.
  - simpl. exists [], "". eexists. rewrite Hlists, Hfeeds. done.
  - destruct (mark_new_spec (sub_id subscription) (ep :: rest) 0 w1)
      as (marked & w2 & Hm & Hf & Hclock2 & Hmap & Hall).
    destruct (files_inv _ _ Hf) as (Hsubs2 & Hfeeds2 & Hlists2 & Hreqs2 & Hwr2).
    change (0 <? length (ep :: rest))%nat with true. cbv iota.
    unfold bind. rewrite Hm. simpl.
    exists marked. eexists _, _. rewrite Hlists2, Hfeeds2, Hlists, Hfeeds. done.
Qed.

(** The run of [updateFeed] on a feed that could not be had. *)
Lemma updateFeed_not_fetched subscription w :
  match (fetch (sub_feedUrl subscription) w).1 with
  | Thrown message =>
      (updateFeed subscription w).1 =
        Normal {| updated := false; upd_error := Some message;
                  newEpisodes := None; totalEpisodes := None |} ∧
      files (updateFeed subscription w).2 = files w
  | Normal response =>
      ok response = false →
      (updateFeed subscription w).1 =
        Normal {| updated := false;
                  upd_error := Some ("HTTP " +:+ pretty (status response));
                  newEpisodes := None; totalEpisodes := None |} ∧
      files (updateFeed subscription w).2 = files w
  end.
Proof.
  destruct (fetch (sub_feedUrl subscription) w) as [[response|e] w1] eqn:Hfetch.
  - simpl. intros Hok. unfold updateFeed, try_catch, bind.
    rewrite Hfetch, Hok. simpl. split; [done|]. by eapply fetch_files.
  - simpl. unfold updateFeed, try_catch, bind. rewrite Hfetch. simpl.
    split; [done|]. by eapply fetch_files.
Qed.



Lemma NoDup_keys_filter (P : Item → Prop) `{∀ ep, Decision (P ep)} episodes :
  NoDup (map identity episodes) → NoDup (map identity (filter P episodes)).
Proof.
  induction episodes as [|ep rest IH]; [done|].
  simpl. intros [Hnot Hnd]%NoDup_cons. rewrite filter_cons.
  destruct (decide (P ep)); [|by apply IH].
  simpl. apply NoDup_cons. split; [|by apply IH].
  intros (ep' & Heq & Hin)%list_elem_of_fmap.
  apply list_elem_of_filter in Hin as [_ Hin].
  apply Hnot, list_elem_of_fmap. by exists ep'.
Qed.

(** X13. When no two episodes on record share a key and no two items of the
    fetched feed do, no two episodes of the merged list share a key. *)
Theorem updateFeed_keeps_keys_distinct (subscription : Subscription)
    (w w1 : World) (response : Response) :
  fetch (sub_feedUrl subscription) w = (Normal response, w1) →
  ok response = true →
  NoDup (identities (stored_episodes w (sub_id subscription))) →
  NoDup (map identity (parseRSS (text response)).2) →
  NoDup (identities
           (stored_episodes (updateFeed subscription w).2
              (sub_id subscription))).
Proof.
  intros Hfetch Hok HL HF.
  destruct (updateFeed_merged subscription w response w1 Hfetch Hok)
    as (marked & _ & _ & ->).
  apply NoDup_app. split; [|split; [|done]].
  - unfold newEpisodes_of. by apply NoDup_keys_filter.
  - intros key (ep & -> & Hin)%list_elem_of_fmap.
    by apply elem_of_newEpisodes_of in Hin as [_ Hnot].
Qed.

(** X14. After a refresh that fetched the feed, the feed file of the podcast
    holds the subscription's title, not the feed's, the feed's image or else
    the subscription's, and as [episodeCount] the number of items of the
    feed, not the length of the merged list; the feed files of the other
    podcasts are as they were. *)
Theorem updateFeed_rewrites_feed_file (subscription : Subscription)
    (w w1 : World) (response : Response) :
  fetch (sub_feedUrl subscription) w = (Normal response, w1) →
  ok response = true →
  let after := (updateFeed subscription w).2 in
  (∃ file, feeds after !! sub_id subscription = Some file ∧
     feed_podcastId file = sub_id subscription ∧
     ch_title (feed_channel file) = Some (sub_title subscription) ∧
     ch_imageUrl (feed_channel file) =
       (if truthy_opt (ch_imageUrl (match_channel (text response)))
        then ch_imageUrl (match_channel (text response))
        else Some (sub_imageUrl subscription)) ∧
     ch_author (feed_channel file) = ch_author (match_channel (text response)) ∧
     ch_description (feed_channel file) = None ∧
     feed_episodeCount file = length (parseRSS (text response)).2) ∧
  ∀ k, k ≠ sub_id subscription → feeds after !! k = feeds w !! k.
Proof.
  intros Hfetch Hok after.
  destruct (updateFeed_writes subscription w response w1 Hfetch Hok)
    as (marked & t & t' & _ & _ & Hfeeds).
  fold after in Hfeeds. rewrite Hfeeds. split.
  - eexists. rewrite lookup_insert_eq. split; [reflexivity|]. done.
  - intros k Hk. by rewrite lookup_insert_ne.
Qed.

End RefreshFacts.

(** ** The episode lists across runs *)

Section LedgerFacts.
Import Js UpdateFeeds Ledger.
Context {rt : Runtime}.

Local Arguments parseRSS : simpl never.
Local Arguments Subscribe.parseRSS : simpl never.
Local Arguments Subscribe.episodesList : simpl never.

Lemma extended_refl lists : extended lists lists.
Proof. intros id l Hl. by exists l, []. Qed.

Lemma extended_trans lists1 lists2 lists3 :
  extended lists1 lists2 → extended lists2 lists3 → extended lists1 lists3.
Proof.
  intros H12 H23 id l Hl.
  destruct (H12 id l Hl) as (l2 & added2 & Hl2 & Heq2).
  destruct (H23 id l2 Hl2) as (l3 & added3 & Hl3 & Heq3).
  exists l3, (added3 ++ added2). split; [done|].
  by rewrite Heq3, Heq2, app_assoc.
Qed.

Lemma mark_known_idemp l : map mark_known (map mark_known l) = map mark_known l.
Proof. rewrite map_map. by apply map_ext. Qed.

(** What one refresh does to the list files. *)
Lemma updateFeed_lists subscription w :
  episode_lists (updateFeed subscription w).2 = episode_lists w ∨
  ∃ marked listUpdated,
    marked ≠ [] ∧
    episode_lists (updateFeed subscription w).2 =
      <[sub_id subscription :=
          {| list_podcastId := sub_id subscription;
             list_count :=
               length (marked ++ map mark_known
                                   (stored_episodes w (sub_id subscription)));
             list_lastUpdated := Some listUpdated;
             list_episodes :=
               marked ++ map mark_known
                           (stored_episodes w (sub_id subscription)) |}]>
        (episode_lists w).
Proof.
  pose proof (updateFeed_not_fetched subscription w) as Hnot.
  destruct (fetch (sub_feedUrl subscription) w) as [[response|e] w1] eqn:Hfetch;
    simpl in Hnot.
  - destruct (ok response) eqn:Hok.
    + destruct (updateFeed_writes subscription w response w1 Hfetch Hok)
        as (marked & t & t' & Hmap & Hlists & _).
      destruct (newEpisodes_of _ _) as [|ep rest]; [by left|].
      right. exists marked, t. split; [|done].
      intros ->. discriminate Hmap.
    + destruct (Hnot eq_refl) as [_ Hfiles].
      left. by destruct (files_inv _ _ Hfiles) as (_ & _ & -> & _).
  - destruct Hnot as [_ Hfiles].
    left. by destruct (files_inv _ _ Hfiles) as (_ & _ & -> & _).
Qed.

Lemma updateFeed_extends subscription w :
  extended (episode_lists w) (episode_lists (updateFeed subscription w).2).
Proof.
  destruct (updateFeed_lists subscription w)
    as [->|(marked & t & _ & ->)]; [apply extended_refl|].
  intros id l Hl. destruct (decide (id = sub_id subscription)) as [->|Hne].
  - eexists _, (map mark_known marked). rewrite lookup_insert_eq.
    split; [done|]. simpl. unfold stored_episodes. rewrite Hl.
    by rewrite map_app, mark_known_idemp.
  - exists l, []. by rewrite lookup_insert_ne.
Qed.

Lemma updateFeed_counts subscription w :
  counts_right (episode_lists w) →
  counts_right (episode_lists (updateFeed subscription w).2).
Proof.
  destruct (updateFeed_lists subscription w)
    as [->|(marked & t & _ & ->)]; [done|].
  intros Hcount id l. destruct (decide (id = sub_id subscription)) as [->|Hne].
  - rewrite lookup_insert_eq. by intros [= <-].
  - rewrite lookup_insert_ne by done. apply Hcount.
Qed.

(** A property of the list files that every refresh carries forward is
    carried forward by the loop over the subscriptions. *)
Lemma update_each_lists (R : relation (gmap string EpisodeList)) :
  (∀ lists, R lists lists) →
  (∀ lists1 lists2 lists3, R lists1 lists2 → R lists2 lists3 → R lists1 lists3) →
  (∀ subscription w,
     R (episode_lists w) (episode_lists (updateFeed subscription w).2)) →
  ∀ podcastIds subscriptions results w,
    R (episode_lists w)
      (episode_lists (update_each podcastIds subscriptions results w).2).
Proof.
  intros Hrefl Htrans Hstep podcastIds.
  induction podcastIds as [|id rest IH]; intros subscriptions results w.
  - apply Hrefl.
  - simpl. destruct (subscriptions !! id) as [subscription|]; [|apply Hrefl].
    unfold bind. pose proof (Hstep subscription w) as Hone.
    destruct (updateFeed subscription w) as [[result|e] w1]; [|exact Hone].
    simpl in *. eapply Htrans; [exact Hone|]. apply (IH _ _ (tick w1)).
Qed.

Lemma main_lists (R : relation (gmap string EpisodeList)) :
  (∀ lists, R lists lists) →
  (∀ lists1 lists2 lists3, R lists1 lists2 → R lists2 lists3 → R lists1 lists3) →
  (∀ subscription w,
     R (episode_lists w) (episode_lists (updateFeed subscription w).2)) →
  ∀ w, R (episode_lists w) (episode_lists (main w).2).
Proof.
  intros Hrefl Htrans Hstep w. unfold main.
  destruct (subscriptions_json w) as [subscriptions|]; [|apply Hrefl].
  unfold bind.
  pose proof (update_each_lists R Hrefl Htrans Hstep (Object_keys subscriptions)
                subscriptions ∅ w) as Hloop.
  by destruct (update_each _ _ _ w) as [[updated|e] w1].
Qed.

(** What a run of the subscribe script does to the list files. *)
Lemma subscribe_main_lists cfg w :
  episode_lists (Subscribe.main cfg w).2 = episode_lists w ∨
  ∃ episodes,
    episode_lists (Subscribe.main cfg w).2 =
      <[Subscribe.podcastId_of cfg :=
          {| list_podcastId := Subscribe.podcastId_of cfg;
             list_count := length episodes;
             list_lastUpdated := None;
             list_episodes := episodes |}]> (episode_lists w).
Proof.
  unfold Subscribe.main, try_catch, bind.
  case_bool_decide as Haction; [by left|].
  unfold Subscribe.subscribe.
  destruct (truthy (Subscribe.FEED_URL cfg)); cbn [negb]; [|by left].
  unfold bind.
  destruct (fetch (Subscribe.FEED_URL cfg) w) as [[response|e] w1] eqn:Hfetch.
  2: { left. simpl.
       by destruct (files_inv _ _ (fetch_files _ _ _ _ Hfetch))
         as (_ & _ & -> & _). }
  destruct (files_inv _ _ (fetch_files _ _ _ _ Hfetch)) as (_ & _ & Hl & _).
  destruct (ok response); cbn [negb]; [|left; simpl; by rewrite Hl].
  destruct (Subscribe.parseRSS (text response)) as [channel episodes].
  unfold Subscribe.subscribedAt_or_now, read_subscriptions.
  right. exists (Subscribe.episodesList (Subscribe.podcastId_of cfg) episodes).
  destruct (registry w1 !! Subscribe.podcastId_of cfg) as [s|] eqn:Hs;
    [destruct (truthy (sub_subscribedAt s)) eqn:Ht|]; simpl.
  all: rewrite ?Hs, ?Ht; simpl.
  all: by rewrite Hl.
Qed.

(** X15. A batch run never drops or reorders an episode on record: every
    list on file before the run is on file after it, and holds the episodes
    it held, in their order, after the ones the run has added; they differ at
    most in their [isNew] mark. So every key on record stays on record. *)
Theorem update_feeds_only_adds_episodes (w : World) :
  extended (episode_lists w) (episode_lists (main w).2) ∧
  ∀ podcastId key,
    key ∈ identities (stored_episodes w podcastId) →
    key ∈ identities (stored_episodes (main w).2 podcastId).
Proof.
  assert (extended (episode_lists w) (episode_lists (main w).2)) as Hext.
  { apply (main_lists extended).
    - apply extended_refl.
    - apply extended_trans.
    - apply updateFeed_extends. }
  split; [done|]. intros id key. unfold stored_episodes.
  destruct (episode_lists w !! id) as [l|] eqn:Hl;
    [|by intros ?%elem_of_nil].
  destruct (Hext id l Hl) as (l' & added & -> & Heq). intros Hkey.
  rewrite <- (identities_mark_known (list_episodes l')), Heq, identities_app,
    identities_mark_known.
  apply elem_of_app. by right.
Qed.

(** X16. When every list file states as [count] the number of episodes it
    holds, so does every list file after a run of the subscribe script, after
    a refresh of one feed and after a batch run. *)
Theorem scripts_keep_count_right (cfg : Subscribe.Config)
    (subscription : Subscription) (w : World) :
  counts_right (episode_lists w) →
  counts_right (episode_lists (Subscribe.main cfg w).2) ∧
  counts_right (episode_lists (updateFeed subscription w).2) ∧
  counts_right (episode_lists (main w).2).
Proof.
  intros Hcount. split_and!.
  - destruct (subscribe_main_lists cfg w) as [->|(episodes & ->)]; [done|].
    intros id l. destruct (decide (id = Subscribe.podcastId_of cfg)) as [->|Hne].
    + rewrite lookup_insert_eq. by intros [= <-].
    + rewrite lookup_insert_ne by done. apply Hcount.
  - by apply updateFeed_counts.
  - revert Hcount.
    apply (main_lists (λ l l', counts_right l → counts_right l')).
    + by intros l.
    + intros l1 l2 l3 H12 H23 H1. by apply H23, H12.
    + apply updateFeed_counts.
Qed.

End LedgerFacts.

(** ** The summary of a batch run *)

Section SummaryFacts.
Import Js UpdateFeeds.
Context {rt : Runtime}.


End SummaryFacts.

(** ** The search script *)

Section SearchFacts.
Import Js Search.
Context {rt : Runtime} {lib : Library}.

Lemma truthy_or_else a b : truthy_opt a = true → or_else a b ≠ "".
Proof.
  destruct a as [s|]; [|done]. simpl. intros Ht. rewrite Ht.
  unfold truthy in Ht. by apply bool_decide_eq_true_1 in Ht.
Qed.

Lemma result_of_feedUrl item result :
  result_of item = Some result → sr_feedUrl result ≠ "".
Proof.
  unfold result_of. destruct (truthy_opt (feedUrl item)) eqn:Ht; [|done].
  intros [= <-]. simpl. by apply truthy_or_else.
Qed.

(** What [searchPodcasts] returns was read off the items of the answer. *)
Lemma searchPodcasts_results query limit w results :
  (searchPodcasts query limit w).1 = Normal results →
  ∃ items, results = omap result_of items.
Proof.
  unfold searchPodcasts, bind.
  destruct (fetch _ w) as [[response|e] w1]; [|done].
  destruct (ok response); simpl; [|done].
  destruct (JSON_parse_results (text response)) as [items|e]; [|done].
  simpl. intros [= <-]. by exists items.
Qed.

(** The lookup files after [save_lookups]: a file that was there is as it
    was; under an identifier without a file, and other than [0], there is the
    first of the results that has this identifier. Nothing else changes. *)
Lemma save_lookups_lookups results : ∀ w,
  let after := (save_lookups results w).2 in
  (∀ itunesId,
     lookups after !! itunesId =
       match lookups w !! itunesId with
       | Some result => Some result
       | None =>
           if decide (itunesId = 0%Z) then None
           else snd <$> list_find (λ r, sr_itunesId r = itunesId) results
       end) ∧
  search_cache after = search_cache w ∧
  requests after = requests w ∧
  downloads after = downloads w ∧
  episode_lists after = episode_lists w ∧
  feeds after = feeds w ∧
  subscriptions_json after = subscriptions_json w.
Proof.
  induction results as [|result rest IH]; intros w; simpl.
  - split; [|done]. intros itunesId.
    destruct (lookups w !! itunesId); [done|]. by destruct (decide _).
  - unfold bind. case_bool_decide as Hzero; simpl.
    + destruct (lookups w !! sr_itunesId result) as [there|] eqn:Hthere; simpl.
      * destruct (IH w) as (Hl & Hrest). split; [|exact Hrest].
        intros itunesId. rewrite Hl.
        destruct (lookups w !! itunesId) as [r|] eqn:Hr; [done|].
        destruct (decide (itunesId = 0%Z)); [done|].
        destruct (decide (sr_itunesId result = itunesId)) as [<-|Hne];
          [congruence|].
        by destruct (list_find _ rest) as [[j r]|].
      * destruct (IH (write_lookup (sr_itunesId result) result w).2)
          as (Hl & Hrest). split; [|exact Hrest].
        intros itunesId. rewrite Hl. simpl.
        destruct (decide (sr_itunesId result = itunesId)) as [<-|Hne].
        -- rewrite lookup_insert_eq, Hthere.
           by destruct (decide (sr_itunesId result = 0%Z)).
        -- rewrite lookup_insert_ne by done.
           destruct (lookups w !! itunesId) as [r|]; [done|].
           destruct (decide (itunesId = 0%Z)); [done|].
           by destruct (list_find _ rest) as [[j r]|].
    + destruct (IH w) as (Hl & Hrest). split; [|exact Hrest].
      intros itunesId. rewrite Hl.
      destruct (lookups w !! itunesId) as [r|] eqn:Hr; [done|].
      destruct (decide (itunesId = 0%Z)); [done|].
      destruct (decide (sr_itunesId result = itunesId)) as [<-|Hne].
      { congruence. }
      by destruct (list_find _ rest) as [[j r]|].
Qed.

(** The run of the search script on a query that is not empty. *)
Lemma search_main_run cfg w :
  QUERY cfg ≠ "" →
  match (searchPodcasts (QUERY cfg) (LIMIT cfg) w).1 with
  | Normal results =>
      ∃ timestamp w1,
        let record :=
          {| res_success := Some true;
             res_requestId := Some (REQUEST_ID cfg);
             res_timestamp := Some timestamp;
             res_error := None;
             res_details :=
               SearchDetails (QUERY cfg) (length results) results |} in
        (main cfg w).1 = 0 ∧
        (main cfg w).2 = (save_lookups results w1).2 ∧
        lookups w1 = lookups w ∧
        search_cache w1 = <[hashQuery (QUERY cfg) := record]> (search_cache w) ∧
        requests w1 = <[REQUEST_ID cfg := record]> (requests w)
  | Thrown message =>
      (main cfg w).1 = 1 ∧
      lookups (main cfg w).2 = lookups w ∧
      search_cache (main cfg w).2 = search_cache w
  end.
Proof.
  intros Hq. unfold main, truthy.
  rewrite bool_decide_eq_true_2 by done. cbn [negb].
  unfold try_catch, bind.
  pose proof (searchPodcasts_quiet (QUERY cfg) (LIMIT cfg) w) as Hf.
  destruct (searchPodcasts _ _ w) as [[results|e] w0]; simpl in Hf.
  - unfold files in Hf. injection Hf as Hsubs Hfeeds Hlists Hreq Hcache Hlook _.
    simpl.
    match goal with |- context [save_lookups results ?v] =>
      destruct (save_lookups_spec results v) as (w' & Hrun & _);
      eexists _, v
    end.
    rewrite Hrun. simpl. rewrite Hlook, Hcache, Hreq. done.
  - unfold files in Hf. injection Hf as Hsubs Hfeeds Hlists Hreq Hcache Hlook _.
    simpl. done.
Qed.

(** X18. The lookup files are written once. A run of the search script
    leaves every lookup file that exists as it is, and never writes one for
    the identifier 0. A lookup file that it creates holds the first result of
    the search that has this identifier, and that result has a feed URL; the
    script has then found results and exits with code 0. *)
Theorem search_writes_lookups_once (cfg : Config) (w : World) :
  let after := (main cfg w).2 in
  (∀ itunesId result,
     lookups w !! itunesId = Some result →
     lookups after !! itunesId = Some result) ∧
  lookups after !! 0%Z = lookups w !! 0%Z ∧
  (∀ itunesId result,
     lookups w !! itunesId = None →
     lookups after !! itunesId = Some result →
     (main cfg w).1 = 0 ∧
     sr_itunesId result = itunesId ∧
     sr_feedUrl result ≠ "" ∧
     ∃ results j,
       (searchPodcasts (QUERY cfg) (LIMIT cfg) w).1 = Normal results ∧
       results !! j = Some result ∧
       ∀ i earlier, results !! i = Some earlier → i < j →
                    sr_itunesId earlier ≠ itunesId).
Proof.
  intros after. unfold after.
  destruct (decide (QUERY cfg = "")) as [Hempty|Hq].
  { unfold main, truthy. rewrite bool_decide_eq_false_2 by (by intros []).
    simpl. split_and!; try done. intros itunesId result ->. done. }
  pose proof (search_main_run cfg w Hq) as Hrun.
  destruct (searchPodcasts (QUERY cfg) (LIMIT cfg) w).1 as [results|e] eqn:Hres.
  2: { destruct Hrun as (_ & -> & _). split_and!; try done.
       intros itunesId result ->. done. }
  destruct Hrun as (timestamp & w1 & Hcode & -> & Hlook & _).
  destruct (save_lookups_lookups results w1) as (Hl & _). cbv zeta in Hl.
  split_and!.
  - intros itunesId result Hthere. by rewrite Hl, Hlook, Hthere.
  - rewrite Hl, Hlook. by destruct (lookups w !! 0%Z).
  - intros itunesId result Hnone. rewrite Hl, Hlook, Hnone.
    destruct (decide (itunesId = 0%Z)); [done|].
    destruct (list_find _ results) as [[j r]|] eqn:Hfind; [|done].
    simpl. intros [= ->].
    apply list_find_Some in Hfind as (Hj & Hid & Hearlier).
    split; [done|]. split; [done|]. split.
    + destruct (searchPodcasts_results _ _ _ _ Hres) as (items & ->).
      apply list_elem_of_lookup_2 in Hj.
      apply list_elem_of_omap in Hj as (item & _ & Hitem).
      by eapply result_of_feedUrl.
    + exists results, j. split; [done|]. split; [done|].
      intros i earlier Hi Hlt. by eapply Hearlier.
Qed.

(** X19. With a query, the search script exits with code 0 exactly when
    [searchPodcasts] returned. It has then written one and the same record to
    the cache file of the query and to the result file of the request: it
    says [success: true], counts the results and lists them, and each of them
    has a feed URL. When [searchPodcasts] threw, the script exits with code 1
    and has left the cache and the lookup files as they were. *)
Theorem search_caches_what_it_reports (cfg : Config) (w : World) :
  QUERY cfg ≠ "" →
  let after := (main cfg w).2 in
  match (searchPodcasts (QUERY cfg) (LIMIT cfg) w).1 with
  | Normal results =>
      (main cfg w).1 = 0 ∧
      Forall (λ result, sr_feedUrl result ≠ "") results ∧
      ∃ record,
        search_cache after !! hashQuery (QUERY cfg) = Some record ∧
        requests after !! REQUEST_ID cfg = Some record ∧
        res_success record = Some true ∧
        res_requestId record = Some (REQUEST_ID cfg) ∧
        res_details record =
          SearchDetails (QUERY cfg) (length results) results
  | Thrown message =>
      (main cfg w).1 = 1 ∧
      search_cache after = search_cache w ∧
      lookups after = lookups w
  end.
Proof.
  intros Hq after. unfold after.
  pose proof (search_main_run cfg w Hq) as Hrun.
  destruct (searchPodcasts (QUERY cfg) (LIMIT cfg) w).1 as [results|e] eqn:Hres.
  2: { destruct Hrun as (? & ? & ?). done. }
  destruct Hrun as (timestamp & w1 & Hcode & -> & _ & Hcache & Hreq).
  destruct (save_lookups_lookups results w1) as (_ & -> & -> & _).
  split; [done|]. split.
  - destruct (searchPodcasts_results _ _ _ _ Hres) as (items & ->).
    apply Forall_forall. intros result Hin.
    apply list_elem_of_omap in Hin as (item & _ & Hitem).
    by eapply result_of_feedUrl.
  - eexists. rewrite Hcache, Hreq, !lookup_insert_eq. done.
Qed.

End SearchFacts.

(** ** The download script *)

Section DownloadFacts.
Import Js Download.
Context {rt : Runtime} {lib : Library}.



End DownloadFacts.

(** ** The properties above, on the example worlds *)

Section ExampleFacts.
Import Js Scenario.


Lemma subscribe_replaces_list_witness :
  "g2" ∉ UpdateFeeds.identities
           (UpdateFeeds.stored_episodes
              (Subscribe.main (rt := runtime [item (Some "g1") "u1"])
                 (config "subscribe" "") subscribed_world).2 podcastId).
Proof.
  apply (subscribe_replaces_list (rt := runtime [item (Some "g1") "u1"])
           (config "subscribe" "") subscribed_world (tick subscribed_world)
           response);
    try discriminate; try reflexivity.
  - vm_compute. left.
  - intros Hin. vm_compute in Hin.
    apply list_elem_of_singleton in Hin. discriminate.
Defined.


Lemma subscribe_then_refresh_witness :
  let subscribed :=
    (Subscribe.main (rt := runtime feed3) (config "subscribe" "")
       empty_world).2 in
  let stored :=
    Subscribe.subscription_written (rt := runtime feed3)
      (config "subscribe" "") response (registry empty_world)
      (tick empty_world) in
  episode_lists (UpdateFeeds.updateFeed (rt := runtime feed3) stored
                   subscribed).2 = episode_lists subscribed.
Proof.
  intros subscribed stored.
  assert (registry subscribed !! Subscribe.podcastId_of (rt := runtime feed3)
                                   (config "subscribe" "") = Some stored)
    as Hstored by (vm_compute; reflexivity).
  assert (fetch (rt := runtime feed3) (sub_feedUrl stored) subscribed =
          (Normal response, tick subscribed))
    as Hfetch by (vm_compute; reflexivity).
  destruct (subscribe_then_refresh (rt := runtime feed3)
              (config "subscribe" "") empty_world (tick empty_world)
              (tick subscribed) response response stored
              ltac:(discriminate) ltac:(discriminate) eq_refl eq_refl
              Hstored Hfetch eq_refl eq_refl)
    as (_ & _ & result & _ & _ & _ & Hlists).
  exact Hlists.
Defined.

Lemma updateFeed_keeps_keys_distinct_witness :
  NoDup (UpdateFeeds.identities
           (UpdateFeeds.stored_episodes
              (UpdateFeeds.updateFeed (rt := runtime feed3) subscription
                 subscribed_world).2 podcastId)).
Proof.
  apply (updateFeed_keeps_keys_distinct (rt := runtime feed3) subscription
           subscribed_world (tick subscribed_world) response eq_refl eq_refl).
  - apply (bool_decide_unpack _). vm_compute. exact I.
  - apply (bool_decide_unpack _). vm_compute. exact I.
Defined.

Lemma updateFeed_rewrites_feed_file_witness :
  feed_episodeCount <$>
    feeds (UpdateFeeds.updateFeed (rt := runtime feed3) subscription
             subscribed_world).2 !! podcastId = Some 3.
Proof.
  destruct (updateFeed_rewrites_feed_file (rt := runtime feed3) subscription
              subscribed_world (tick subscribed_world) response
              eq_refl eq_refl)
    as ((file & Hfile & _ & _ & _ & _ & _ & Hcount) & _).
  change (sub_id subscription) with podcastId in Hfile.
  rewrite Hfile. simpl. f_equal. exact Hcount.
Defined.

Lemma scripts_keep_count_right_witness :
  Ledger.counts_right
    (episode_lists (UpdateFeeds.main (rt := runtime feed3)
                      subscribed_world).2).
Proof.
  apply (scripts_keep_count_right (rt := runtime feed3)
           (config "subscribe" "") subscription subscribed_world).
  intros id l Hl. simpl in Hl.
  apply lookup_singleton_Some in Hl as [_ <-]. reflexivity.
Defined.


Lemma search_caches_what_it_reports_witness :
  (Search.main (rt := runtime feed3) (lib := Catalogue.library) search_config
     empty_world).1 = 0.
Proof.
  pose proof (search_caches_what_it_reports (rt := runtime feed3)
                (lib := Catalogue.library) search_config empty_world)
    as Hrun.
  simpl in Hrun. apply Hrun. discriminate.
Defined.



End ExampleFacts.

(** ** The script of the top charts *)

Section ExtractFacts.
Import Js UpdateTop.

Lemma digits_idemp s : digits (digits s) = digits s.
Proof.
  induction s as [|a s IH]; [done|]. simpl.
  destruct (is_digit a) eqn:Ha; [|done]. simpl. by rewrite Ha, IH.
Qed.

Lemma digits_split s : ∃ rest, s = digits s +:+ rest ∧ digits rest = "".
Proof.
  induction s as [|a s (rest & IH & Hrest)].
  - exists "". by rewrite append_nil.
  - simpl. destruct (is_digit a) eqn:Ha.
    + exists rest. rewrite append_cons. by rewrite <- IH.
    + exists (String a s). rewrite append_nil. simpl. by rewrite Ha.
Qed.

Lemma append_inv_cons a s before t :
  String a s = before +:+ t →
  (before = "" ∧ t = String a s) ∨
  ∃ before', before = String a before' ∧ s = before' +:+ t.
Proof.
  destruct before as [|b before'].
  - rewrite append_nil. intros <-. by left.
  - rewrite append_cons. intros [= <- ->]. right. by eexists.
Qed.

(** X22. [extractItunesId] returns the digits that follow the first [id]
    followed by a digit: a string of digits that is not empty, taken whole,
    and no [id] to its left is followed by a digit. It returns [null] exactly
    when no [id] of the URL is followed by a digit. *)
Theorem extractItunesId_first_id (url : string) :
  match extractItunesId url with
  | Some itunesId =>
      itunesId ≠ "" ∧ digits itunesId = itunesId ∧
      ∃ before after,
        url = before +:+ "id" +:+ itunesId +:+ after ∧
        digits after = "" ∧
        ∀ before' after',
          url = before' +:+ "id" +:+ after' →
          String.length before' < String.length before →
          digits after' = ""
  | None =>
      ∀ before after, url = before +:+ "id" +:+ after → digits after = ""
  end.
Proof.
  induction url as [|a rest IH].
  - simpl. intros [|b before] after; [rewrite append_nil|rewrite append_cons];
      discriminate.
  - cbn [extractItunesId].
    destruct rest as [|b after0].
    { intros [|c before] after; rewrite ?append_nil, ?append_cons.
      - discriminate.
      - intros [= _ Hrest]. destruct before; discriminate. }
    assert (∀ before after,
              String a (String b after0) = before +:+ "id" +:+ after →
              (before = "" ∧ a = "i"%char ∧ b = "d"%char ∧ after = after0) ∨
              ∃ before', before = String a before' ∧
                         String b after0 = before' +:+ "id" +:+ after)
      as Hsplit.
    { intros before after Heq.
      apply append_inv_cons in Heq as [[-> Heq]|(before' & -> & Heq)].
      - left. rewrite !append_cons, append_nil in Heq.
        injection Heq as <- <- <-. done.
      - right. by exists before'. }
    destruct (bool_decide (a = "i"%char ∧ b = "d"%char) && truthy (digits after0))
      eqn:Htest.
    + apply andb_true_iff in Htest as [Hid Hdigits].
      apply bool_decide_eq_true_1 in Hid as [-> ->].
      unfold truthy in Hdigits. apply bool_decide_eq_true_1 in Hdigits.
      split; [done|]. split; [apply digits_idemp|].
      destruct (digits_split after0) as (after & Hafter & Hrest).
      exists "", after. rewrite append_nil, !append_cons, append_nil.
      split; [by rewrite <- Hafter|]. split; [done|].
      intros before' after' _ Hlt. simpl in Hlt. lia.
    + assert (a = "i"%char → b = "d"%char → digits after0 = "") as Hhere.
      { intros -> ->. rewrite bool_decide_eq_true_2 in Htest by done.
        simpl in Htest. unfold truthy in Htest.
        apply bool_decide_eq_false_1 in Htest.
        by destruct (decide (digits after0 = "")). }
      destruct (extractItunesId (String b after0)) as [itunesId|].
      * destruct IH as (Hne & Hdig & before & after & Hurl & Hafter & Hleft).
        split; [done|]. split; [done|].
        exists (String a before), after. rewrite append_cons, <- Hurl.
        split; [done|]. split; [done|].
        intros before' after' Heq Hlt.
        destruct (Hsplit before' after' Heq)
          as [(-> & -> & -> & ->)|(before'' & -> & Heq')].
        -- by apply Hhere.
        -- apply (Hleft before'' after' Heq'). simpl in Hlt. lia.
      * intros before after Heq.
        destruct (Hsplit before after Heq)
          as [(-> & -> & -> & ->)|(before'' & -> & Heq')].
        -- by apply Hhere.
        -- by apply (IH before'' after).
Qed.

End ExtractFacts.

Section TopFacts.
Import Js UpdateTop.
Context {rt : Runtime} {lib : Library}.

Lemma fetch_within_disk fuel : ∀ url c r c',
  fetch_within fuel url c = Some (r, c') →
  disk c' = disk c ∧ instant c < instant c'.
Proof.
  induction fuel as [|fuel IH]; intros url c r c'; simpl.
  - destruct (protocol_get (instant c) url) as [e|statusCode location ? data].
    + intros [= <- <-]. split; [done | simpl; lia].
    + destruct (redirect statusCode location); [done|].
      intros [= <- <-]. split; [done | simpl; lia].
  - destruct (protocol_get (instant c) url) as [e|statusCode location ? data].
    + intros [= <- <-]. split; [done | simpl; lia].
    + destruct (redirect statusCode location) as [target|].
      * intros Hrec. apply IH in Hrec as [Hd Hi]. simpl in Hi.
        split; [by rewrite Hd | lia].
      * intros [= <- <-]. split; [done | simpl; lia].
Qed.

(** More redirects allowed for do not change a fetch that ends. *)
Lemma fetch_within_mono k : ∀ fuel url c,
  is_Some (fetch_within k url c) → k ≤ fuel →
  fetch_within fuel url c = fetch_within k url c.
Proof.
  induction k as [|k IH]; intros fuel url c Hsome Hle.
  - destruct fuel as [|fuel]; [done|]. simpl in *.
    destruct (protocol_get (instant c) url) as [e|statusCode location ? data];
      [done|].
    destruct (redirect statusCode location); [|done]. by destruct Hsome.
  - destruct fuel as [|fuel]; [lia|]. simpl in *.
    destruct (protocol_get (instant c) url) as [e|statusCode location ? data];
      [done|].
    destruct (redirect statusCode location); [|done].
    apply IH; [done | lia].
Qed.

Lemma disk_inv c c' :
  disk c' = disk c →
  top_files c' = top_files c ∧ lookup_files c' = lookup_files c ∧
  country_files c' = country_files c ∧
  all_lookups_json c' = all_lookups_json c.
Proof. unfold disk. intros [= ? ? ? ?]. done. Qed.

Lemma lookupPodcast_spec redirects itunesId c r c' :
  lookupPodcast redirects itunesId c = Some (r, c') →
  disk c' = disk c ∧
  ∀ lookup, r = Normal (Some lookup) → lk_itunesId lookup = itunesId.
Proof.
  unfold lookupPodcast, and_then, fetch.
  destruct (fetch_within redirects _ c) as [[[response|e] c1]|] eqn:Hfetch;
    [| |done].
  - apply fetch_within_disk in Hfetch as [Hd _].
    destruct (ok response); cbn [negb].
    + destruct (JSON_parse_first_result (text response)) as [[item|]|e].
      * intros [= <- <-]. split; [done|]. by intros lookup [= <-].
      * intros [= <- <-]. split; [done|]. by intros lookup [=].
      * intros [= <- <-]. split; [done|]. by intros lookup [=].
    + intros [= <- <-]. split; [done|]. by intros lookup [=].
  - apply fetch_within_disk in Hfetch as [Hd _].
    intros [= <- <-]. split; [done|]. by intros lookup [=].
Qed.

(** One lookup either leaves the files and [lookups] as they are, or saves
    the lookup in both. It does not throw. *)
Lemma lookup_and_save_spec redirects itunesId lookups c r c' :
  lookup_and_save redirects itunesId lookups c = Some (r, c') →
  (r = Normal lookups ∧ disk c' = disk c) ∨
  ∃ lookup,
    r = Normal (<[itunesId := lookup]> lookups) ∧
    lookup_files c' = <[itunesId := TopLookup lookup]> (lookup_files c) ∧
    top_files c' = top_files c ∧ country_files c' = country_files c ∧
    all_lookups_json c' = all_lookups_json c ∧
    lk_itunesId lookup = itunesId ∧ lk_feedUrl lookup ≠ "".
Proof.
  unfold lookup_and_save, catching, and_then.
  destruct (lookupPodcast redirects itunesId c) as [[[lookup|e] c1]|] eqn:Hlook;
    [| |done].
  - apply lookupPodcast_spec in Hlook as [Hd Hid].
    destruct (disk_inv _ _ Hd) as (Ht & Hl & Hc & Ha).
    destruct lookup as [lookup|].
    + destruct (truthy (lk_feedUrl lookup)) eqn:Hfeed.
      * simpl. intros [= <- <-]. right. exists lookup. simpl.
        rewrite Hl, Ht, Hc, Ha. split_and!; try done.
        -- by apply Hid.
        -- unfold truthy in Hfeed. by apply bool_decide_eq_true_1 in Hfeed.
      * simpl. intros [= <- <-]. by left.
    + simpl. intros [= <- <-]. by left.
  - apply lookupPodcast_spec in Hlook as [Hd _].
    simpl. intros [= <- <-]. by left.
Qed.

(** What the loop over the entries has done when it ends or throws: under
    every name, the file and the entry of [lookups] are as they were, or
    hold a lookup saved under this name, read off an entry. *)
Lemma lookup_each_spec redirects entries : ∀ lookups c r c',
  lookup_each redirects entries lookups c = Some (r, c') →
  top_files c' = top_files c ∧ country_files c' = country_files c ∧
  all_lookups_json c' = all_lookups_json c ∧
  ∀ k,
    (lookup_files c' !! k = lookup_files c !! k ∧
     ∀ lookups', r = Normal lookups' → lookups' !! k = lookups !! k) ∨
    ∃ lookup,
      lookup_files c' !! k = Some (TopLookup lookup) ∧
      (∀ lookups', r = Normal lookups' → lookups' !! k = Some lookup) ∧
      lk_itunesId lookup = k ∧ lk_feedUrl lookup ≠ "" ∧
      ∃ idUrl, Normal idUrl ∈ entries ∧ extractItunesId idUrl = Some k.
Proof.
  induction entries as [|[idUrl|e] rest IH]; intros lookups c r c'; simpl.
  - intros [= <- <-]. split_and!; try done. intros k. left.
    split; [done|]. by intros lookups' [= <-].
  - destruct (extractItunesId idUrl) as [itunesId|] eqn:Hid.
    + unfold and_then.
      destruct (lookup_and_save redirects itunesId lookups c)
        as [[[lookups1|e] c1]|] eqn:Hone; [| |done].
      * intros Hrest. apply IH in Hrest as (Ht & Hc & Ha & Hk).
        apply lookup_and_save_spec in Hone
          as [[[= ->] Hd]|(lookup & [= ->] & Hl1 & Ht1 & Hc1 & Ha1 & Hl & Hf)].
        -- destruct (disk_inv _ _ Hd) as (Ht1 & Hl1 & Hc1 & Ha1).
           rewrite Ht, Hc, Ha, Ht1, Hc1, Ha1. split_and!; try done.
           intros k. destruct (Hk k) as [[Hsame Hlook]|(l & Hfile & Hlook & Hrest)].
           ++ left. by rewrite Hsame, Hl1.
           ++ right. exists l. split; [done|]. split; [done|].
              destruct Hrest as (? & ? & u & Hin & Hu).
              split_and!; try done. exists u. split; [by right | done].
        -- rewrite Ht, Hc, Ha, Ht1, Hc1, Ha1. split_and!; try done.
           intros k. destruct (Hk k) as [[Hsame Hlook]|(l & Hfile & Hlook & Hrest)].
           ++ destruct (decide (k = itunesId)) as [->|Hne].
              ** right. exists lookup. rewrite Hsame, Hl1, lookup_insert_eq.
                 split; [done|]. split.
                 { intros lookups' Hr. rewrite (Hlook _ Hr).
                   apply lookup_insert_eq. }
                 split_and!; try done. exists idUrl. split; [left | done].
              ** left. rewrite Hsame, Hl1, lookup_insert_ne by done.
                 split; [done|]. intros lookups' Hr. rewrite (Hlook _ Hr).
                 by apply lookup_insert_ne.
           ++ right. exists l. split; [done|]. split; [done|].
              destruct Hrest as (? & ? & u & Hin & Hu).
              split_and!; try done. exists u. split; [by right | done].
      * apply lookup_and_save_spec in Hone
          as [[[=] _]|(lookup & [=] & _)].
    + intros Hrest. apply IH in Hrest as (Ht & Hc & Ha & Hk).
      split_and!; try done. intros k.
      destruct (Hk k) as [?|(l & Hfile & Hlook & ? & ? & u & Hin & Hu)];
        [by left|].
      right. exists l. split_and!; try done. exists u. split; [by right | done].
  - intros [= <- <-]. split_and!; try done. intros k. left.
    split; [done|]. by intros lookups' [=].
Qed.

(** The run of [processCountry]. *)
Lemma processCountry_spec redirects country c r c' :
  processCountry redirects country c = Some (r, c') →
  ∃ lookups,
    r = Normal lookups ∧
    all_lookups_json c' = all_lookups_json c ∧
    (∀ k, k ≠ country →
          top_files c' !! k = top_files c !! k ∧
          country_files c' !! k = country_files c !! k) ∧
    (country_files c' = country_files c ∧ lookups = ∅ ∨
     country_files c' =
       <[country := {| cl_country := country; cl_count := size lookups;
                       cl_lookups := lookups |}]> (country_files c)) ∧
    ∀ k,
      (lookup_files c' !! k = lookup_files c !! k ∧ lookups !! k = None) ∨
      ∃ lookup,
        lookup_files c' !! k = Some (TopLookup lookup) ∧
        (lookups = ∅ ∨ lookups !! k = Some lookup) ∧
        lk_itunesId lookup = k ∧ lk_feedUrl lookup ≠ "".
Proof.
  unfold processCountry, catching, and_then.
  destruct (getTopPodcasts redirects country c) as [[[topData|e] c1]|] eqn:Htop;
    [| |done].
  - assert (disk c1 = disk c) as Hd.
    { revert Htop. unfold getTopPodcasts, and_then, fetch.
      destruct (fetch_within redirects _ c) as [[[response|e] c0]|] eqn:Hfetch;
        [| |done].
      - apply fetch_within_disk in Hfetch as [Hd _].
        destruct (ok response); cbn [negb]; [|done].
        destruct (JSON_parse_top (text response)); [|done].
        by intros [= _ <-].
      - done. }
    destruct (disk_inv _ _ Hd) as (Ht1 & Hl1 & Hc1 & Ha1).
    simpl. destruct (top_entries topData) as [entries|e].
    + match goal with |- context [lookup_each redirects entries ∅ ?v] =>
        destruct (lookup_each redirects entries ∅ v) as [[[lookups|e] c2]|]
          eqn:Hloop; [| |done];
        apply lookup_each_spec in Hloop as (Ht & Hc & Ha & Hk); simpl in *
      end.
      * intros [= <- <-]. exists lookups. simpl.
        rewrite Ha, Ha1, Hc, Hc1, Ht, Ht1. split_and!; try done.
        -- intros k Hne. by rewrite !lookup_insert_ne.
        -- by right.
        -- intros k. destruct (Hk k) as [[Hsame Hlook]|(l & Hfile & Hlook & ? & ? & _)].
           ++ left. rewrite Hsame, Hl1. split; [done|].
              rewrite (Hlook _ eq_refl). apply lookup_empty.
           ++ right. exists l. split_and!; try done. right. by apply Hlook.
      * intros [= <- <-]. exists ∅.
        rewrite Ha, Ha1, Hc, Hc1, Ht, Ht1. split_and!; try done.
        -- intros k Hne. by rewrite lookup_insert_ne.
        -- by left.
        -- intros k. destruct (Hk k) as [[Hsame _]|(l & Hfile & _ & ? & ? & _)].
           ++ left. by rewrite Hsame, Hl1, lookup_empty.
           ++ right. exists l. split_and!; try done. by left.
    + simpl. intros [= <- <-]. exists ∅. simpl.
      rewrite Ha1, Hc1, Ht1, Hl1. split_and!; try done.
      * intros k Hne. by rewrite lookup_insert_ne.
      * by left.
      * intros k. left. by rewrite lookup_empty.
  - assert (disk c1 = disk c) as Hd.
    { revert Htop. unfold getTopPodcasts, and_then, fetch.
      destruct (fetch_within redirects _ c) as [[[response|e'] c0]|] eqn:Hfetch;
        [| |done].
      - apply fetch_within_disk in Hfetch as [Hd _].
        destruct (ok response); cbn [negb].
        + destruct (JSON_parse_top (text response)); [done|].
          by intros [= _ <-].
        + by intros [= _ <-].
      - apply fetch_within_disk in Hfetch as [Hd _]. by intros [= _ <-]. }
    destruct (disk_inv _ _ Hd) as (Ht1 & Hl1 & Hc1 & Ha1).
    simpl. intros [= <- <-]. exists ∅.
    rewrite Ha1, Hc1, Ht1, Hl1. split_and!; try done.
    + by left.
    + intros k. left. by rewrite lookup_empty.
Qed.

End TopFacts.

Section TopTheorems.
Import Js UpdateTop.
Context {rt : Runtime} {lib : Library}.

Lemma saved_over_refl files : saved_over files files.
Proof. intros file. by left. Qed.

Lemma saved_over_trans files1 files2 files3 :
  saved_over files1 files2 → saved_over files2 files3 →
  saved_over files1 files3.
Proof.
  intros H12 H23 file. destruct (H23 file) as [->|Hsaved]; [apply H12|].
  by right.
Qed.

Lemma saved_over_named files files' :
  saved_over files files' → named_by_id files → named_by_id files'.
Proof.
  intros Hover Hnamed file data Hfile.
  destruct (Hover file) as [Hsame|(lookup & Hsaved & Hid & _)].
  - apply Hnamed. by rewrite <- Hsame.
  - rewrite Hsaved in Hfile. by injection Hfile as <-.
Qed.

Lemma saved_over_dom files files' :
  saved_over files files' → dom files ⊆ dom files'.
Proof.
  intros Hover file. rewrite !elem_of_dom.
  destruct (Hover file) as [->|(lookup & -> & _)]; [done|]. by eexists.
Qed.

Section Settling.
Variable redirects : nat.
Hypothesis fetch_ends : ∀ url c, is_Some (fetch_within redirects url c).

Lemma lookup_and_save_settles itunesId lookups c :
  is_Some (lookup_and_save redirects itunesId lookups c).
Proof.
  unfold lookup_and_save, catching, and_then, lookupPodcast, and_then, fetch.
  cbv zeta.
  match goal with |- context [fetch_within redirects ?u c] =>
    destruct (fetch_ends u c) as [[[response|e] c1] ->]; [|done]
  end.
  destruct (ok response); cbn [negb]; [|done].
  destruct (JSON_parse_first_result (text response)) as [[item|]|e]; try done.
  simpl. by destruct (truthy _).
Qed.

Lemma lookup_each_settles entries : ∀ lookups c,
  is_Some (lookup_each redirects entries lookups c).
Proof.
  induction entries as [|[idUrl|e] rest IH]; intros lookups c; simpl; try done.
  destruct (extractItunesId idUrl) as [itunesId|]; [|apply IH].
  unfold and_then.
  destruct (lookup_and_save_settles itunesId lookups c)
    as [[[lookups1|e] c1] ->]; [apply IH | done].
Qed.

Lemma processCountry_settles country c :
  is_Some (processCountry redirects country c).
Proof.
  unfold processCountry, catching, and_then, getTopPodcasts, and_then, fetch.
  cbv zeta.
  match goal with |- context [fetch_within redirects ?u c] =>
    destruct (fetch_ends u c) as [[[response|e] c1] ->]; [|done]
  end.
  destruct (ok response); cbn [negb]; [|done].
  destruct (JSON_parse_top (text response)) as [topData|e]; [|done].
  simpl. destruct (top_entries topData) as [entries|e]; [|done].
  match goal with |- context [lookup_each redirects entries ∅ ?v] =>
    by destruct (lookup_each_settles entries ∅ v) as [[[lookups|e] c2] ->]
  end.
Qed.

End Settling.

(** X23. Allowing for as many redirects as a fetch may meet, one run of
    [processCountry] ends and does not throw. Every lookup it returns is on
    file under its [itunesId], and has a feed URL. A lookup file is as it
    was, or has been overwritten by such a lookup. The file of the country is
    written with the lookups returned and their number, or, when the chart
    could not be had or read, is left as it was and nothing is returned. The
    files of other countries and the master file are not touched. *)
Theorem processCountry_saves_lookups (redirects : nat) (country : string)
    (c : Checkout) :
  (∀ url c, is_Some (fetch_within redirects url c)) →
  ∃ lookups c',
    processCountry redirects country c = Some (Normal lookups, c') ∧
    (∀ itunesId lookup,
       lookups !! itunesId = Some lookup →
       lookup_files c' !! itunesId = Some (TopLookup lookup) ∧
       lk_itunesId lookup = itunesId ∧ lk_feedUrl lookup ≠ "") ∧
    saved_over (lookup_files c) (lookup_files c') ∧
    (country_files c' = country_files c ∧ lookups = ∅ ∨
     country_files c' =
       <[country := {| cl_country := country; cl_count := size lookups;
                       cl_lookups := lookups |}]> (country_files c)) ∧
    (∀ other, other ≠ country →
       top_files c' !! other = top_files c !! other ∧
       country_files c' !! other = country_files c !! other) ∧
    all_lookups_json c' = all_lookups_json c.
Proof.
  intros Hends.
  destruct (processCountry_settles redirects Hends country c) as [[r c'] Hrun].
  destruct (processCountry_spec _ _ _ _ _ Hrun)
    as (lookups & -> & Hall & Hother & Hcountry & Hfiles).
  exists lookups, c'. split; [done|]. split_and!; try done.
  - intros itunesId lookup Hlook.
    destruct (Hfiles itunesId) as [[_ Hnone]|(l & Hfile & [->|Hl] & Hid & Hfeed)].
    + congruence.
    + by rewrite lookup_empty in Hlook.
    + rewrite Hlook in Hl. injection Hl as <-. done.
  - intros file. destruct (Hfiles file) as [[Hsame _]|(l & Hfile & _ & Hid & Hfeed)].
    + by left.
    + right. by exists l.
Qed.

(** What the runs of [processCountry] in [main] leave. *)
Lemma processCountry_scope redirects country c r c' :
  processCountry redirects country c = Some (r, c') →
  saved_over (lookup_files c) (lookup_files c') ∧
  ∀ other, other ≠ country →
    top_files c' !! other = top_files c !! other ∧
    country_files c' !! other = country_files c !! other.
Proof.
  intros Hrun.
  destruct (processCountry_spec _ _ _ _ _ Hrun)
    as (lookups & -> & Hall & Hother & Hcountry & Hfiles).
  split; [|done].
  intros file. destruct (Hfiles file) as [[Hsame _]|(l & Hfile & _ & Hid & Hfeed)].
  - by left.
  - right. by exists l.
Qed.

Lemma process_others_scope cfg redirects countries : ∀ c r c',
  process_others cfg redirects countries c = Some (r, c') →
  r = Normal () ∧
  saved_over (lookup_files c) (lookup_files c') ∧
  ∀ other, other ∉ countries →
    top_files c' !! other = top_files c !! other ∧
    country_files c' !! other = country_files c !! other.
Proof.
  induction countries as [|country rest IH]; intros c r c'; simpl.
  - intros [= <- <-]. split; [done|]. split; [apply saved_over_refl | done].
  - unfold and_then. case_bool_decide as Hne.
    + destruct (processCountry redirects country c) as [[r1 c1]|] eqn:Hrun;
        [|done].
      destruct (processCountry_spec _ _ _ _ _ Hrun) as (lookups & -> & _).
      apply processCountry_scope in Hrun as [Hover Hother].
      simpl. intros Hrest. apply IH in Hrest as (-> & Hover' & Hother').
      split; [done|]. split; [by eapply saved_over_trans|].
      intros other Hnot. apply not_elem_of_cons in Hnot as [Hc Hrest].
      destruct (Hother' other Hrest) as [-> ->]. by apply Hother.
    + simpl. intros Hrest. apply IH in Hrest as (-> & Hover' & Hother').
      split; [done|]. split; [done|].
      intros other Hnot. apply not_elem_of_cons in Hnot as [_ Hrest].
      by apply Hother'.
Qed.

Lemma process_others_settles cfg redirects countries :
  (∀ url c, is_Some (fetch_within redirects url c)) →
  ∀ c, is_Some (process_others cfg redirects countries c).
Proof.
  intros Hends. induction countries as [|country rest IH]; intros c; simpl.
  - done.
  - unfold and_then. case_bool_decide as Hne; [|apply IH].
    destruct (processCountry_settles redirects Hends country c)
      as [[r c1] Hrun].
    rewrite Hrun.
    destruct (processCountry_spec _ _ _ _ _ Hrun) as (lookups & -> & _).
    simpl. apply IH.
Qed.

(** The run of [main] up to the master file. *)
Lemma main_spec_top cfg redirects c r c' :
  main cfg redirects c = Some (r, c') →
  r = Normal () ∧
  saved_over (lookup_files c) (lookup_files c') ∧
  (∀ other,
     other ≠ COUNTRY cfg →
     SINGLE_COUNTRY cfg ≠ "" ∨ other ∉ COUNTRIES →
     top_files c' !! other = top_files c !! other ∧
     country_files c' !! other = country_files c !! other) ∧
  ∃ updated,
    all_lookups_json c' =
      Some {| all_count := size (collect (lookup_files c'));
              all_updated := updated;
              all_lookups := collect (lookup_files c') |}.
Proof.
  unfold main, and_then.
  destruct (processCountry redirects (COUNTRY cfg) c) as [[r1 c1]|] eqn:Hrun;
    [|done].
  destruct (processCountry_spec _ _ _ _ _ Hrun) as (lookups & -> & _).
  apply processCountry_scope in Hrun as [Hover Hother].
  unfold truthy. case_bool_decide as Hsingle; cbn [negb].
  - simpl. intros [= <- <-]. simpl. split; [done|]. split; [done|].
    split; [|by eexists]. intros other Hne _. by apply Hother.
  - destruct (process_others cfg redirects COUNTRIES c1) as [[r2 c2]|] eqn:Hrest;
      [|done].
    apply process_others_scope in Hrest as (-> & Hover' & Hother').
    simpl. intros [= <- <-]. simpl. split; [done|].
    split; [by eapply saved_over_trans|]. split; [|by eexists].
    intros other Hne [Hs|Hnot]; [by destruct Hsingle; destruct (decide (SINGLE_COUNTRY cfg = ""))|].
    destruct (Hother' other Hnot) as [-> ->]. by apply Hother.
Qed.

Lemma collect_fold (files : gmap string LookupFile) (names : list string) :
  ∀ (allLookups : gmap string LookupFile) k,
  named_by_id files →
  (∀ file, file ∈ names → is_Some (files !! file)) →
  foldl (λ allLookups file,
           match files !! file with
           | Some data => <[itunesId_of data := data]> allLookups
           | None => allLookups
           end) allLookups names !! k =
  if decide (k ∈ names) then files !! k else allLookups !! k.
Proof.
  intros allLookups k Hnamed. revert allLookups.
  induction names as [|file rest IH]; intros allLookups Hsome; simpl.
  - destruct (decide (k ∈ [])) as [Hin|]; [|done]. by apply elem_of_nil in Hin.
  - destruct (Hsome file) as [data Hdata]; [left|].
    rewrite Hdata, (Hnamed _ _ Hdata), IH by (intros f Hf; apply Hsome; by right).
    destruct (decide (k ∈ rest)) as [Hin|Hout].
    + rewrite decide_True by (by right). done.
    + destruct (decide (k = file)) as [->|Hne].
      * rewrite decide_True by left. by rewrite lookup_insert_eq.
      * rewrite decide_False, lookup_insert_ne; [done|done|].
        intros [?|?]%elem_of_cons; done.
Qed.

Lemma collect_named `{!LibraryLaws lib} files :
  named_by_id files → collect files = files.
Proof.
  intros Hnamed. apply map_eq. intros k. unfold collect.
  rewrite collect_fold; [|done|by intros file ?%readdirSync_elem].
  destruct (decide (k ∈ readdirSync files)) as [Hin|Hout]; [done|].
  rewrite lookup_empty. symmetry. apply eq_None_not_Some.
  by rewrite <- readdirSync_elem.
Qed.

(** X24. Allowing for as many redirects as a fetch may meet, the script ends
    and does not throw. It writes the master file, whose [count] is the
    number of lookups it lists. No lookup file is removed. When every lookup
    file is named by the [itunesId] of its result, this is still so
    afterwards, and the master file lists every lookup file, under its name:
    those that were there before the run as well as those it saved. *)
Theorem update_top_master_file `{!LibraryLaws lib} (cfg : Config)
    (redirects : nat) (c : Checkout) :
  (∀ url c, is_Some (fetch_within redirects url c)) →
  ∃ c' master,
    main cfg redirects c = Some (Normal (), c') ∧
    all_lookups_json c' = Some master ∧
    all_count master = size (all_lookups master) ∧
    dom (lookup_files c) ⊆ dom (lookup_files c') ∧
    (named_by_id (lookup_files c) →
       named_by_id (lookup_files c') ∧
       all_lookups master = lookup_files c' ∧
       all_count master = size (lookup_files c')).
Proof.
  intros Hends.
  assert (is_Some (main cfg redirects c)) as [[r c'] Hrun].
  { unfold main, and_then.
    destruct (processCountry_settles redirects Hends (COUNTRY cfg) c)
      as [[r1 c1] Hrun].
    rewrite Hrun.
    destruct (processCountry_spec _ _ _ _ _ Hrun) as (lookups & -> & _).
    destruct (negb _); [|done].
    destruct (process_others_settles cfg redirects COUNTRIES Hends c1)
      as [[r2 c2] Hrest].
    rewrite Hrest.
    by apply process_others_scope in Hrest as (-> & _). }
  destruct (main_spec_top _ _ _ _ _ Hrun) as (-> & Hover & _ & updated & Hall).
  eexists c', _. split; [done|]. split; [exact Hall|]. simpl.
  split; [done|]. split; [by apply saved_over_dom|].
  intros Hnamed.
  assert (named_by_id (lookup_files c')) as Hnamed'
    by by eapply saved_over_named.
  by rewrite collect_named.
Qed.

(** X25. A run of the script that ends has touched the chart and the lookups
    of the country asked for and, unless [SINGLE_COUNTRY] is set, of [IL],
    [US] and [GB]: the chart and the lookups file of every other country are
    as they were. *)
Theorem update_top_countries (cfg : Config) (redirects : nat)
    (c c' : Checkout) (r : Completion unit) (country : string) :
  main cfg redirects c = Some (r, c') →
  country ≠ COUNTRY cfg →
  SINGLE_COUNTRY cfg ≠ "" ∨ country ∉ ["IL"; "US"; "GB"] →
  top_files c' !! country = top_files c !! country ∧
  country_files c' !! country = country_files c !! country.
Proof.
  intros Hrun Hne Hout.
  destruct (main_spec_top _ _ _ _ _ Hrun) as (_ & _ & Hscope & _).
  by apply Hscope.
Qed.

End TopTheorems.

Section ChartFacts.
Import Js UpdateTop.

Lemma charts_laws : LibraryLaws Charts.library.
Proof.
  split.
  - intros files. apply NoDup_fst_map_to_list.
  - intros files file. simpl. rewrite list_elem_of_fmap. split.
    + intros ([file' data] & -> & Hin). apply elem_of_map_to_list in Hin.
      by eexists.
    + intros [data Hdata]. exists (file, data). split; [done|].
      by apply elem_of_map_to_list.
Qed.

Lemma charts_fetch_ends url c :
  is_Some (fetch_within (rt := Scenario.runtime []) 0 url c).
Proof. by eexists. Qed.

Lemma processCountry_saves_lookups_witness :
  ∃ lookups c',
    processCountry (rt := Scenario.runtime []) (lib := Charts.library) 0 "IL"
      Charts.empty = Some (Normal lookups, c') ∧
    all_lookups_json c' = None.
Proof.
  destruct (processCountry_saves_lookups (rt := Scenario.runtime [])
              (lib := Charts.library) 0 "IL" Charts.empty charts_fetch_ends)
    as (lookups & c' & Hrun & _ & _ & _ & _ & Hall).
  by exists lookups, c'.
Defined.

Lemma update_top_master_file_witness :
  ∃ c' master,
    main (rt := Scenario.runtime []) (lib := Charts.library)
      (Charts.config "") 0 Charts.empty = Some (Normal (), c') ∧
    all_lookups_json c' = Some master ∧
    all_lookups master = lookup_files c'.
Proof.
  destruct (update_top_master_file (rt := Scenario.runtime [])
              (lib := Charts.library) (LibraryLaws0 := charts_laws)
              (Charts.config "") 0 Charts.empty charts_fetch_ends)
    as (c' & master & Hrun & Hfile & _ & _ & Hnamed).
  exists c', master. split; [done|]. split; [done|].
  apply Hnamed. intros file data Hfile'. simpl in Hfile'.
  by rewrite lookup_empty in Hfile'.
Defined.

Lemma update_top_countries_witness :
  ∃ r c',
    main (rt := Scenario.runtime []) (lib := Charts.library)
      (Charts.config "1") 0 Charts.empty = Some (r, c') ∧
    top_files c' !! "US" = None ∧
    country_files c' !! "US" = None.
Proof.
  assert (is_Some (main (rt := Scenario.runtime []) (lib := Charts.library)
                     (Charts.config "1") 0 Charts.empty))
    as [[r c'] Hrun] by (vm_compute; by eexists).
  exists r, c'. split; [done|].
  apply (update_top_countries (rt := Scenario.runtime [])
           (lib := Charts.library) (Charts.config "1") 0 Charts.empty c' r
           "US" Hrun).
  - discriminate.
  - left. discriminate.
Defined.

End ChartFacts.
